(** * Reflective enums ([enum.h]): a shallow embedding and its properties

    The header generates, for a list of declarations such as
    [A, B = 10, C], a class [_Enum<Tag>] over two parallel static arrays:
    [_value_array] (the resolved values) and [_name_array] (the stringized
    declarations, e.g. ["B = 10"]).  This file embeds the functions of
    namespace [_enum] and the static members of [_Enum] and proves
    properties of the lookups, of the name trimming and of the range
    metadata.

    Modelling conventions.
    - [char] is [ascii]; a [const char*] is the list of the characters
      stored from the pointer on, and every position behind the list reads
      as the null character (the terminator of a string literal).  The
      functions below stop at the first null, as the C++ ones do.
    - [size_t] values that index or measure an existing object are [N];
      they are bounded by the size of the object, so no reduction occurs.
      The sentinel [(size_t)-1] and the conversion of [_max - _min + 1] to
      [size_t] are written with their reduction modulo [2^64].
    - A function that may throw or leave the defined behaviour of C++
      (a read outside an array) returns a [result].
    - The static member [_processedNames] is threaded explicitly. *)

From Stdlib Require Import Ascii String List ZArith NArith Arith Bool Lia.
From Stdlib Require Import FunInd Recdef.
Import ListNotations.

(** ** Results of C++ evaluations *)

Inductive exception : Type :=
| runtime_error (what : string)
| domain_error (what : string).

Inductive result (A : Type) : Type :=
| Return (a : A)
| Throw (e : exception)
| Undefined.

Arguments Return {A} a.
Arguments Throw {A} e.
Arguments Undefined {A}.

Definition bind {A B : Type} (r : result A) (k : A -> result B) : result B :=
  match r with
  | Return a => k a
  | Throw e => Throw e
  | Undefined => Undefined
  end.

Notation "x <- r ;; k" := (bind r (fun x => k))
  (at level 61, r at next level, right associativity).

(** [a[index]] for an array of known extent: a read outside it is undefined. *)
Definition array_get {A : Type} (a : list A) (index : N) : result A :=
  match nth_error a (N.to_nat index) with
  | Some x => Return x
  | None => Undefined
  end.

(** Heap arrays obtained from [new T[n]]: every cell starts indeterminate. *)
Definition new_array {A : Type} (n : N) : list (option A) :=
  repeat None (N.to_nat n).

(** [a[index] = x] on a heap array: a write outside it is undefined. *)
Definition array_set {A : Type} (a : list (option A)) (index : N) (x : A)
  : result (list (option A)) :=
  if (N.to_nat index <? length a)%nat
  then Return (firstn (N.to_nat index) a
               ++ Some x :: skipn (S (N.to_nat index)) a)
  else Undefined.

(** Reading a heap cell: outside the array or indeterminate is undefined. *)
Definition array_read {A : Type} (a : list (option A)) (index : N) : result A :=
  match nth_error a (N.to_nat index) with
  | Some (Some x) => Return x
  | _ => Undefined
  end.

(** [for (size_t index = 0; index < count; ++index) body] over a loop state. *)
Fixpoint for_loop_from {S : Type} (iterations : nat) (index : N)
  (body : N -> S -> result S) (state : S) : result S :=
  match iterations with
  | O => Return state
  | Datatypes.S rest =>
      state' <- body index state;;
      for_loop_from rest (index + 1) body state'
  end.

Definition for_loop {S : Type} (count : N) (body : N -> S -> result S)
  (init : S) : result S :=
  for_loop_from (N.to_nat count) 0 body init.

(** ** Characters and strings *)

Definition NUL : ascii := Ascii.zero.

(** [s[index]] for a null-terminated string. *)
Definition char_at (s : list ascii) (index : N) : ascii :=
  nth (N.to_nat index) s NUL.

Definition chars (s : string) : list ascii := list_ascii_of_string s.

(** *** The functions of [<cstring>] that the header calls *)

Fixpoint strlen (s : list ascii) : N :=
  match s with
  | [] => 0
  | c :: rest => if Ascii.eqb c NUL then 0 else 1 + strlen rest
  end.

(** [strpbrk(s, accept)]: offset of the first character of [s] that occurs
    in [accept], [None] for the null pointer. *)
Fixpoint strpbrk (s accept : list ascii) : option N :=
  match s with
  | [] => None
  | c :: rest =>
      if Ascii.eqb c NUL then None
      else if existsb (Ascii.eqb c) (firstn (N.to_nat (strlen accept)) accept)
      then Some 0%N
      else option_map N.succ (strpbrk rest accept)
  end.

(** [strncpy(memory + dest, src, n)]: exactly [n] cells are written, nulls
    once [src] has ended. *)
Fixpoint strncpy (memory : list (option ascii)) (dest : N) (src : list ascii)
  (n : nat) : result (list (option ascii)) :=
  match n with
  | O => Return memory
  | S n' =>
      memory' <- array_set memory dest (char_at src 0);;
      strncpy memory' (dest + 1)
        (if Ascii.eqb (char_at src 0) NUL then [] else tl src) n'
  end.

(** The string a [const char*] into heap memory denotes. *)
Fixpoint string_of (cells : list (option ascii)) : result (list ascii) :=
  match cells with
  | Some c :: rest =>
      if Ascii.eqb c NUL then Return []
      else s <- string_of rest;; Return (c :: s)
  | _ => Undefined
  end.

Definition string_at (memory : list (option ascii)) (p : N)
  : result (list ascii) :=
  string_of (skipn (N.to_nat p) memory).

(** ** Integral types *)

Record IntegralType : Type := { is_signed : bool; bits : Z }.

Definition min_value (t : IntegralType) : Z :=
  if is_signed t then - 2 ^ (bits t - 1) else 0.

Definition max_value (t : IntegralType) : Z :=
  if is_signed t then 2 ^ (bits t - 1) - 1 else 2 ^ bits t - 1.

Definition representable (t : IntegralType) (z : Z) : bool :=
  (min_value t <=? z)%Z && (z <=? max_value t)%Z.

(** [int] is taken to be 32 bits wide. *)
Definition int : IntegralType := {| is_signed := true; bits := 32 |}.

(** Integral promotion: a type narrower than [int] is promoted to [int]. *)
Definition promoted (t : IntegralType) : IntegralType :=
  if (bits t <? bits int)%Z then int else t.

(** The value of an arithmetic expression of type [t] whose mathematical
    result is [z]: unsigned types reduce, signed overflow is undefined (and
    ill-formed in a constant expression). *)
Definition arithmetic (t : IntegralType) (z : Z) : result Z :=
  if is_signed t
  then if representable t z then Return z else Undefined
  else Return (z mod 2 ^ bits t)%Z.

(** Conversion to [size_t]. *)
Definition to_size_t (z : Z) : N := Z.to_N (z mod 2 ^ 64).

(** ** Namespace [_enum] *)

Module _enum.

(** [#define _ENUM_NAME_ENDERS "= \t\n"] *)
Definition _ENUM_NAME_ENDERS : list ascii :=
  ["="; " "; "009"; "010"]%char.

(** [#define _ENUM_NOT_FOUND ((size_t)-1)] *)
Definition _ENUM_NOT_FOUND : N := 2 ^ 64 - 1.

Function _endsName (c : ascii) (index : N)
  {measure (fun index => (length _ENUM_NAME_ENDERS - N.to_nat index)%nat)
           index} : bool :=
  if Ascii.eqb c (char_at _ENUM_NAME_ENDERS index) then true
  else if Ascii.eqb (char_at _ENUM_NAME_ENDERS index) NUL then false
  else _endsName c (index + 1).
Proof.
  intros c index _ Hmore.
  assert (N.to_nat index < length _ENUM_NAME_ENDERS)%nat.
  { destruct (Nat.lt_ge_cases (N.to_nat index) (length _ENUM_NAME_ENDERS))
      as [Hlt | Hge]; [exact Hlt |].
    unfold char_at in Hmore. rewrite nth_overflow in Hmore by exact Hge.
    discriminate Hmore. }
  lia.
Defined.

(** [c >= 0x41 && c <= 0x5A ? c + 0x20 : c]; the sum stays below 0x7B, so the
    conversion back to [char] changes nothing, whether [char] is signed or
    not. *)
Definition _toLowercaseAscii (c : ascii) : ascii :=
  let n := N_of_ascii c in
  if ((0x41 <=? n) && (n <=? 0x5A))%N then ascii_of_N (n + 0x20) else c.

Function _namesMatch (stringizedName referenceName : list ascii) (index : N)
  {measure (fun index => (length stringizedName - N.to_nat index)%nat) index}
  : bool :=
  if _endsName (char_at stringizedName index) 0
  then Ascii.eqb (char_at referenceName index) NUL
  else if Ascii.eqb (char_at referenceName index) NUL then false
  else if negb (Ascii.eqb (char_at stringizedName index)
                          (char_at referenceName index)) then false
  else _namesMatch stringizedName referenceName (index + 1).
Proof.
  intros stringizedName referenceName index Hname _ _.
  assert (N.to_nat index < length stringizedName)%nat.
  { destruct (Nat.lt_ge_cases (N.to_nat index) (length stringizedName))
      as [Hlt | Hge]; [exact Hlt |].
    unfold char_at in Hname. rewrite nth_overflow in Hname by exact Hge.
    discriminate Hname. }
  lia.
Defined.


Function _namesMatchNocase (stringizedName referenceName : list ascii)
  (index : N)
  {measure (fun index => (length stringizedName - N.to_nat index)%nat) index}
  : bool :=
  if _endsName (char_at stringizedName index) 0
  then Ascii.eqb (char_at referenceName index) NUL
  else if Ascii.eqb (char_at referenceName index) NUL then false
  else if negb (Ascii.eqb (_toLowercaseAscii (char_at stringizedName index))
                          (_toLowercaseAscii (char_at referenceName index)))
  then false
  else _namesMatchNocase stringizedName referenceName (index + 1).
Proof.
  intros stringizedName referenceName index Hname _ _.
  assert (N.to_nat index < length stringizedName)%nat.
  { destruct (Nat.lt_ge_cases (N.to_nat index) (length stringizedName))
      as [Hlt | Hge]; [exact Hlt |].
    unfold char_at in Hname. rewrite nth_overflow in Hname by exact Hge.
    discriminate Hname. }
  lia.
Defined.

(** *** Namespace [_enum::_range] *)

Module _range.

Function _findMinLoop (values : list Z) (valueCount index : N) (best : Z)
  {measure (fun index => (length values - N.to_nat index)%nat) index}
  : result Z :=
  if (index =? valueCount)%N then Return best
  else match nth_error values (N.to_nat index) with
       | Some v =>
           if (v <? best)%Z
           then _findMinLoop values valueCount (index + 1) v
           else _findMinLoop values valueCount (index + 1) best
       | None => Undefined
       end.
Proof.
  all: intros values valueCount index best _ v Hread _;
    assert (N.to_nat index < length values)%nat
      by (apply nth_error_Some; congruence); lia.
Defined.

Definition _findMin (values : list Z) (valueCount : N) : result Z :=
  first <- array_get values 0;;
  _findMinLoop values valueCount 1 first.

Function _findMaxLoop (values : list Z) (valueCount index : N) (best : Z)
  {measure (fun index => (length values - N.to_nat index)%nat) index}
  : result Z :=
  if (index =? valueCount)%N then Return best
  else match nth_error values (N.to_nat index) with
       | Some v =>
           if (v >? best)%Z
           then _findMaxLoop values valueCount (index + 1) v
           else _findMaxLoop values valueCount (index + 1) best
       | None => Undefined
       end.
Proof.
  all: intros values valueCount index best _ v Hread _;
    assert (N.to_nat index < length values)%nat
      by (apply nth_error_Some; congruence); lia.
Defined.

Definition _findMax (values : list Z) (count : N) : result Z :=
  first <- array_get values 0;;
  _findMaxLoop values count 1 first.

End _range.

(** *** [_processNames]

    [new] reports failure by throwing, so the null checks after the two
    allocations never fire; allocation is taken to succeed. *)

(** The two heap objects the function builds: the array of pointers (each an
    offset into the character storage) and the character storage. *)
Record ProcessedNames : Type := {
  processedNames : list (option N);
  nameStorage : list (option ascii)
}.

Definition _processNames (rawNames : list (list ascii)) (count : N)
  : result ProcessedNames :=
  let processedNames : list (option N) := new_array count in
  bytesNeeded <-
    for_loop count
      (fun index bytesNeeded =>
         raw <- array_get rawNames index;;
         Return (bytesNeeded + (strlen raw + 1))%N)
      0%N;;
  let nameStorage : list (option ascii) := new_array bytesNeeded in
  final <-
    for_loop count
      (fun index '(processedNames, nameStorage, writePointer) =>
         raw <- array_get rawNames index;;
         let nameEnd := strpbrk raw _ENUM_NAME_ENDERS in
         let symbolCount :=
           match nameEnd with
           | None => strlen raw
           | Some nameEnd => nameEnd
           end in
         nameStorage <-
           strncpy nameStorage writePointer raw (N.to_nat symbolCount);;
         processedNames <- array_set processedNames index writePointer;;
         let writePointer := (writePointer + symbolCount)%N in
         nameStorage <- array_set nameStorage writePointer NUL;;
         Return (processedNames, nameStorage, (writePointer + 1)%N))
      (processedNames, nameStorage, 0%N);;
  let '(processedNames, nameStorage, _) := final in
  Return {| processedNames := processedNames; nameStorage := nameStorage |}.

End _enum.

Import _enum.

(** ** The class template [_Enum<Tag>]

    The section variables are the members of [_GeneratedArrays<Tag>]: the
    underlying type and the two static arrays that the [ENUM] macro fills
    from the declarations. *)

(** An instance holds one value of the underlying type. *)
Record _Enum : Type := { _value : Z }.

(** The static member [_processedNames]; [None] is the null pointer. *)
Definition statics : Type := option ProcessedNames.

(** Member functions that touch the static member. *)
Definition stateful (A : Type) : Type := statics -> result A * statics.

Definition bind_stateful {A B : Type} (m : stateful A) (k : A -> stateful B)
  : stateful B :=
  fun st =>
    match m st with
    | (Return a, st') => k a st'
    | (Throw e, st') => (Throw e, st')
    | (Undefined, st') => (Undefined, st')
    end.

Definition lift {A : Type} (r : result A) : stateful A := fun st => (r, st).

Notation "x <~ m ;; k" := (bind_stateful m (fun x => k))
  (at level 61, m at next level, right associativity).

(** The index an iterator of [_Iterable] holds. *)
Record iterator : Type := { _index : N }.

Section Enum_class.

Variable _Integral : IntegralType.
Variable _value_array : list Z.
Variable _name_array : list (list ascii).

Definition _size : N := N.of_nat (length _value_array).

Definition _min : result Z := _range._findMin _value_array _size.
Definition _max : result Z := _range._findMax _value_array _size.

(** [_span = _max - _min + 1], evaluated in the promoted underlying type and
    converted to [size_t]. *)
Definition _span : result N :=
  mx <- _max;;
  mn <- _min;;
  difference <- arithmetic (promoted _Integral) (mx - mn);;
  sum <- arithmetic (promoted _Integral) (difference + 1);;
  Return (to_size_t sum).

Definition to_int (self : _Enum) : Z := _value self.

Function _from_int_loop (value : Z) (throw_exception : bool) (index : N)
  {measure (fun index => (length _value_array - N.to_nat index)%nat) index}
  : result N :=
  if (index =? _size)%N
  then if throw_exception
       then Throw (runtime_error "Enum::from_int: invalid integer value")
       else Return _ENUM_NOT_FOUND
  else match nth_error _value_array (N.to_nat index) with
       | Some v =>
           if (v =? value)%Z then Return index
           else _from_int_loop value throw_exception (index + 1)
       | None => Undefined
       end.
Proof.
  intros value throw_exception index _ v Hread _.
  assert (N.to_nat index < length _value_array)%nat
    by (apply nth_error_Some; congruence).
  lia.
Defined.

Function _from_string_loop (name : list ascii) (throw_exception : bool)
  (index : N)
  {measure (fun index => (length _name_array - N.to_nat index)%nat) index}
  : result N :=
  if (index =? _size)%N
  then if throw_exception
       then Throw (runtime_error "Enum::_from_string: invalid string argument")
       else Return _ENUM_NOT_FOUND
  else match nth_error _name_array (N.to_nat index) with
       | Some raw =>
           if _namesMatch raw name 0 then Return index
           else _from_string_loop name throw_exception (index + 1)
       | None => Undefined
       end.
Proof.
  intros name throw_exception index _ raw Hread _.
  assert (N.to_nat index < length _name_array)%nat
    by (apply nth_error_Some; congruence).
  lia.
Defined.

Function _from_string_nocase_loop (name : list ascii)
  (throw_exception : bool) (index : N)
  {measure (fun index => (length _name_array - N.to_nat index)%nat) index}
  : result N :=
  if (index =? _size)%N
  then if throw_exception
       then Throw (runtime_error
                     "Enum::_from_string_nocase: invalid string argument")
       else Return _ENUM_NOT_FOUND
  else match nth_error _name_array (N.to_nat index) with
       | Some raw =>
           if _namesMatchNocase raw name 0 then Return index
           else _from_string_nocase_loop name throw_exception (index + 1)
       | None => Undefined
       end.
Proof.
  intros name throw_exception index _ raw Hread _.
  assert (N.to_nat index < length _name_array)%nat
    by (apply nth_error_Some; congruence).
  lia.
Defined.

Definition _from_int (value : Z) : result _Enum :=
  index <- _from_int_loop value true 0;;
  constant <- array_get _value_array index;;
  Return {| _value := constant |}.

Definition _from_int_unchecked (value : Z) : _Enum := {| _value := value |}.

Definition _from_string (name : list ascii) : result _Enum :=
  index <- _from_string_loop name true 0;;
  constant <- array_get _value_array index;;
  Return {| _value := constant |}.

Definition _from_string_nocase (name : list ascii) : result _Enum :=
  index <- _from_string_nocase_loop name true 0;;
  constant <- array_get _value_array index;;
  Return {| _value := constant |}.

(** [_is_valid(_Integral)] *)
Definition _is_valid (value : Z) : result bool :=
  index <- _from_int_loop value false 0;;
  Return (negb (index =? _ENUM_NOT_FOUND)%N).

(** [_is_valid] on a name. *)
Definition _is_valid_name (name : list ascii) : result bool :=
  index <- _from_string_loop name false 0;;
  Return (negb (index =? _ENUM_NOT_FOUND)%N).

Definition _is_valid_nocase (name : list ascii) : result bool :=
  index <- _from_string_nocase_loop name false 0;;
  Return (negb (index =? _ENUM_NOT_FOUND)%N).

(** The static member function [_Enum::_processNames]. *)
Definition _processNames : stateful unit :=
  fun _processedNames =>
    match _processedNames with
    | Some _ => (Return tt, _processedNames)
    | None =>
        match _enum._processNames _name_array _size with
        | Return table => (Return tt, Some table)
        | Throw e => (Throw e, None)
        | Undefined => (Undefined, None)
        end
    end.

(** [_processedNames[index]]: the pointer stored in the cached array. *)
Definition processed_name (index : N) : stateful N :=
  fun _processedNames =>
    match _processedNames with
    | Some table => (array_read (processedNames table) index, _processedNames)
    | None => (Undefined, _processedNames)
    end.

Definition _getProcessedName (index : N) : stateful N :=
  _ <~ _processNames;;
  processed_name index.

(** The [for] loop of [to_string], from [index] on. *)
Function to_string_loop (self : _Enum) (index : N)
  {measure (fun index => (length _value_array - N.to_nat index)%nat) index}
  : stateful N :=
  if (index <? _size)%N
  then match nth_error _value_array (N.to_nat index) with
       | Some v =>
           if (v =? _value self)%Z then processed_name index
           else to_string_loop self (index + 1)
       | None => lift Undefined
       end
  else lift (Throw (domain_error "Enum::_to_string: invalid enum value")).
Proof.
  intros self index _ v Hread _.
  assert (N.to_nat index < length _value_array)%nat
    by (apply nth_error_Some; congruence).
  lia.
Defined.

Definition to_string (self : _Enum) : stateful N :=
  _ <~ _processNames;;
  to_string_loop self 0.

(** [operator ==] between two instances. *)
Definition eq_op (self other : _Enum) : bool :=
  (_value self =? _value other)%Z.

(** The other comparison operators between two instances; [operator !=] is
    written through [operator ==], as in the class. *)
Definition ne_op (self other : _Enum) : bool := negb (eq_op self other).
Definition lt_op (self other : _Enum) : bool :=
  (_value self <? _value other)%Z.
Definition le_op (self other : _Enum) : bool :=
  (_value self <=? _value other)%Z.
Definition gt_op (self other : _Enum) : bool :=
  (_value self >? _value other)%Z.
Definition ge_op (self other : _Enum) : bool :=
  (_value self >=? _value other)%Z.

(** [_first = _value_array[0]] and [_last = _value_array[_size - 1]]; the
    index of [_last] is a [size_t] difference. *)
Definition _first : result Z := array_get _value_array 0.
Definition _last : result Z :=
  array_get _value_array (to_size_t (Z.of_N _size - 1)).

(** *** The iterables [_values] and [_names]

    [_BaseIterator] holds an index; [_ValueIterator] and [_NameIterator]
    differ in [operator*]; [_Iterable] gives [begin], [end] and [size]. *)

Definition iterator_incr (it : iterator) : iterator :=
  {| _index := _index it + 1 |}.

Definition iterator_eq (self other : iterator) : bool :=
  (_index other =? _index self)%N.

Definition iterator_ne (self other : iterator) : bool :=
  negb (_index other =? _index self)%N.


(** [_NameIterator::operator*] *)
Definition name_deref (it : iterator) : stateful N :=
  _getProcessedName (_index it).

Definition iterable_begin : iterator := {| _index := 0 |}.
Definition iterable_end : iterator := {| _index := _size |}.

End Enum_class.

(** The string behind the pointer a member function returned. *)
Definition string_result (r : result N * statics) : result (list ascii) :=
  match r with
  | (Return p, Some table) => string_at (nameStorage table) p
  | (Return _, None) => Undefined
  | (Throw e, _) => Throw e
  | (Undefined, _) => Undefined
  end.

(** The range-based [for] statement over an iterable,
    [for (it = begin; it != end; ++it) { ... *it ... }], collecting the
    elements.  [fuel] bounds the number of evaluations of the condition;
    [None] means the bound was reached. *)
Fixpoint range_for {A : Type} (fuel : nat) (deref : iterator -> stateful A)
  (it last : iterator) (st : statics) : option (result (list A) * statics) :=
  match fuel with
  | O => None
  | S fuel' =>
      if iterator_ne it last
      then match deref it st with
           | (Return element, st') =>
               match range_for fuel' deref (iterator_incr it) last st' with
               | Some (Return rest, st'') =>
                   Some (Return (element :: rest), st'')
               | other => other
               end
           | (Throw e, st') => Some (Throw e, st')
           | (Undefined, st') => Some (Undefined, st')
           end
      else Some (Return [], st)
  end.

(** The strings behind a list of pointers into the processed table. *)
Definition strings_at (st : statics) (pointers : list N)
  : list (result (list ascii)) :=
  match st with
  | Some table => map (string_at (nameStorage table)) pointers
  | None => map (fun _ => Undefined) pointers
  end.

(** *** Three generated types *)

Module Channel.
(** [ENUM(Channel, int, RED, GREEN, BLUE)] *)
Definition _Integral : IntegralType := int.
Definition _value_array : list Z := [0; 1; 2]%Z.
Definition _name_array : list (list ascii) :=
  [chars "RED"; chars "GREEN"; chars "BLUE"].
End Channel.

Module Mixed.
(** [ENUM(Mixed, int, A = 10, B, C = 5)] *)
Definition _Integral : IntegralType := int.
Definition _value_array : list Z := [10; 11; 5]%Z.
Definition _name_array : list (list ascii) :=
  [chars "A = 10"; chars "B"; chars "C = 5"].
End Mixed.

Module Alias.
(** [ENUM(Alias, int, X, Y = X)] *)
Definition _Integral : IntegralType := int.
Definition _value_array : list Z := [0; 0]%Z.
Definition _name_array : list (list ascii) := [chars "X"; chars "Y = X"].
End Alias.

(** ** Vocabulary of the statements *)

(** The longest prefix of [s] that holds no character satisfying [stop]. *)
Fixpoint take_until (stop : ascii -> bool) (s : list ascii) : list ascii :=
  match s with
  | [] => []
  | c :: rest => if stop c then [] else c :: take_until stop rest
  end.

(** The constant name inside a stringized declaration: everything before the
    first name ender. *)
Definition name_part (raw : list ascii) : list ascii :=
  take_until (fun c => _endsName c 0) raw.

(** The contents of a null-terminated string. *)
Definition c_str (s : list ascii) : list ascii :=
  take_until (fun c => Ascii.eqb c NUL) s.

(** ASCII case folding of a whole string. *)
Definition fold_case (s : list ascii) : list ascii :=
  map _toLowercaseAscii s.

(** Equality of strings up to the case of the ASCII letters, stated without
    the folding function: corresponding characters are equal, or one is an
    upper-case letter [A]..[Z] and the other the same letter in lower
    case. *)
Definition is_upper (c : ascii) : bool :=
  ((65 <=? N_of_ascii c) && (N_of_ascii c <=? 90))%N.

Definition same_letter (a b : ascii) : Prop :=
  a = b \/
  (is_upper a = true /\ N_of_ascii b = (N_of_ascii a + 32)%N) \/
  (is_upper b = true /\ N_of_ascii a = (N_of_ascii b + 32)%N).

Definition equal_ignoring_case (s t : list ascii) : Prop :=
  Forall2 same_letter s t.

(** Whether entry [index] of a table satisfies a test; false outside it. *)
Definition match_at {A : Type} (test : A -> bool) (table : list A) (index : N)
  : bool :=
  match nth_error table (N.to_nat index) with
  | Some x => test x
  | None => false
  end.

(** [index] is the first entry of the table that satisfies the test. *)
Definition first_match {A : Type} (test : A -> bool) (table : list A)
  (index : N) : Prop :=
  match_at test table index = true /\
  forall earlier, (earlier < index)%N -> match_at test table earlier = false.

(** The tests the three lookup loops apply to a table entry. *)
Definition by_value (value : Z) : Z -> bool := fun v => (v =? value)%Z.
Definition by_name (name : list ascii) : list ascii -> bool :=
  fun raw => _namesMatch raw name 0.
Definition by_name_nocase (name : list ascii) : list ascii -> bool :=
  fun raw => _namesMatchNocase raw name 0.

(** What each lookup loop yields once the index reaches [_size]. *)
Definition int_miss (throw_exception : bool) : result N :=
  if throw_exception
  then Throw (runtime_error "Enum::from_int: invalid integer value")
  else Return _ENUM_NOT_FOUND.

Definition string_miss (throw_exception : bool) : result N :=
  if throw_exception
  then Throw (runtime_error "Enum::_from_string: invalid string argument")
  else Return _ENUM_NOT_FOUND.

Definition nocase_miss (throw_exception : bool) : result N :=
  if throw_exception
  then Throw (runtime_error
                "Enum::_from_string_nocase: invalid string argument")
  else Return _ENUM_NOT_FOUND.

(** The characters [_processNames] writes: every name part followed by a
    null, in declaration order; and the offsets at which the names start. *)
Definition packed_names (rawNames : list (list ascii)) : list ascii :=
  concat (map (fun raw => name_part raw ++ [NUL]) rawNames).

Fixpoint name_offsets (rawNames : list (list ascii)) (start : N) : list N :=
  match rawNames with
  | [] => []
  | raw :: rest =>
      start :: name_offsets rest (start + N.of_nat (length (name_part raw)) + 1)
  end.

Fixpoint sum_N (l : list N) : N :=
  match l with
  | [] => 0
  | n :: rest => n + sum_N rest
  end.

(** The size [_processNames] computes for the character storage. *)
Definition bytes_needed (rawNames : list (list ascii)) : N :=
  sum_N (map (fun raw => strlen raw + 1)%N rawNames).

(** The table [_processNames] builds, in closed form. *)
Definition processed_table (rawNames : list (list ascii)) : ProcessedNames :=
  {| processedNames := map Some (name_offsets rawNames 0);
     nameStorage :=
       map Some (packed_names rawNames)
       ++ repeat None (N.to_nat (bytes_needed rawNames)
                       - length (packed_names rawNames)) |}.

(** The states the static member [_processedNames] can be in: the null
    pointer it is initialised with, or the table [_enum::_processNames]
    returned to the member function [_processNames]. *)
Definition statics_ok (_value_array : list Z)
  (_name_array : list (list ascii)) (st : statics) : Prop :=
  st = None \/
  exists table,
    _enum._processNames _name_array (_size _value_array) = Return table /\
    st = Some table.

(** * Properties *)

(** ** Defining equations in closed form *)

Lemma _endsName_step (c : ascii) (index : N) :
  _endsName c index =
  if Ascii.eqb c (char_at _ENUM_NAME_ENDERS index) then true
  else if Ascii.eqb (char_at _ENUM_NAME_ENDERS index) NUL then false
  else _endsName c (index + 1).
Proof. apply _endsName_equation. Qed.

Lemma _namesMatch_step (s r : list ascii) (index : N) :
  _namesMatch s r index =
  if _endsName (char_at s index) 0 then Ascii.eqb (char_at r index) NUL
  else if Ascii.eqb (char_at r index) NUL then false
  else if negb (Ascii.eqb (char_at s index) (char_at r index)) then false
  else _namesMatch s r (index + 1).
Proof. apply _namesMatch_equation. Qed.

Lemma _namesMatchNocase_step (s r : list ascii) (index : N) :
  _namesMatchNocase s r index =
  if _endsName (char_at s index) 0 then Ascii.eqb (char_at r index) NUL
  else if Ascii.eqb (char_at r index) NUL then false
  else if negb (Ascii.eqb (_toLowercaseAscii (char_at s index))
                          (_toLowercaseAscii (char_at r index))) then false
  else _namesMatchNocase s r (index + 1).
Proof. apply _namesMatchNocase_equation. Qed.

(** ** The name-ender matcher *)

Lemma _endsName_cases (c : ascii) :
  _endsName c 0 =
  existsb (Ascii.eqb c) ["="; " "; "009"; "010"; "000"]%char.
Proof.
  destruct c as [[] [] [] [] [] [] [] []]; reflexivity.
Qed.

(** C6, as the code has it: [_endsName(c)] is true exactly for the equals
    sign, the space, the tab, the newline and the null terminator. *)
Theorem endsName_true_iff (c : ascii) :
  _endsName c 0 = true <->
  c = "="%char \/ c = " "%char \/ c = "009"%char \/ c = "010"%char \/ c = NUL.
Proof.
  rewrite _endsName_cases. simpl.
  rewrite !orb_true_iff, !Ascii.eqb_eq. unfold NUL, Ascii.zero.
  intuition discriminate.
Qed.

(** C6, as stated, fails at the equals sign: it ends a name and is none of
    space, tab, newline, null. *)
Lemma endsName_equals_sign :
  _endsName "="%char 0 = true /\
  ~ ("="%char = " "%char \/ "="%char = "009"%char \/ "="%char = "010"%char
     \/ "="%char = NUL).
Proof.
  split; [reflexivity |].
  intros [H | [H | [H | H]]]; discriminate H.
Qed.

(** ** The name comparators *)

Lemma char_at_cons (c : ascii) (s : list ascii) (index : N) :
  char_at (c :: s) (index + 1) = char_at s index.
Proof.
  unfold char_at. rewrite N.add_1_r, N2Nat.inj_succ. reflexivity.
Qed.

Lemma char_at_0 (s : list ascii) : char_at s 0 = hd NUL s.
Proof. destruct s; reflexivity. Qed.

Lemma endsName_char_at_lt (s : list ascii) (index : N) :
  _endsName (char_at s index) 0 = false ->
  (N.to_nat index < length s)%nat.
Proof.
  intros H.
  destruct (Nat.lt_ge_cases (N.to_nat index) (length s)) as [Hlt | Hge];
    [exact Hlt |].
  unfold char_at in H. rewrite nth_overflow in H by exact Hge.
  discriminate H.
Qed.

(** Dropping the first character of both strings shifts the index. *)
Lemma _namesMatch_shift (c d : ascii) (s r : list ascii) :
  forall index,
    _namesMatch (c :: s) (d :: r) (index + 1) = _namesMatch s r index.
Proof.
  intros index.
  remember (length s - N.to_nat index)%nat as m eqn:Hm.
  revert index Hm.
  induction m as [m IH] using lt_wf_ind. intros index Hm.
  rewrite (_namesMatch_step (c :: s)), (_namesMatch_step s r index).
  rewrite !char_at_cons.
  destruct (_endsName (char_at s index) 0) eqn:Hend; [reflexivity |].
  destruct (Ascii.eqb (char_at r index) NUL); [reflexivity |].
  destruct (negb _); [reflexivity |].
  apply endsName_char_at_lt in Hend.
  apply (IH (length s - N.to_nat (index + 1))%nat); lia.
Qed.

Lemma _namesMatchNocase_shift (c d : ascii) (s r : list ascii) :
  forall index,
    _namesMatchNocase (c :: s) (d :: r) (index + 1)
    = _namesMatchNocase s r index.
Proof.
  intros index.
  remember (length s - N.to_nat index)%nat as m eqn:Hm.
  revert index Hm.
  induction m as [m IH] using lt_wf_ind. intros index Hm.
  rewrite (_namesMatchNocase_step (c :: s)), (_namesMatchNocase_step s r index).
  rewrite !char_at_cons.
  destruct (_endsName (char_at s index) 0) eqn:Hend; [reflexivity |].
  destruct (Ascii.eqb (char_at r index) NUL); [reflexivity |].
  destruct (negb _); [reflexivity |].
  apply endsName_char_at_lt in Hend.
  apply (IH (length s - N.to_nat (index + 1))%nat); lia.
Qed.

Lemma endsName_NUL : _endsName NUL 0 = true.
Proof. reflexivity. Qed.

(** [_namesMatch] compares the name part of the declaration with the whole
    reference string. *)
Lemma _namesMatch_spec (raw name : list ascii) :
  _namesMatch raw name 0 = true <-> name_part raw = c_str name.
Proof.
  revert name. induction raw as [| c raw IH]; intros name.
  - rewrite _namesMatch_step, !char_at_0. cbn [hd]. rewrite endsName_NUL.
    destruct name as [| d name]; cbn; [split; reflexivity |].
    destruct (Ascii.eqb d NUL); split; (reflexivity || discriminate).
  - rewrite _namesMatch_step, !char_at_0. cbn [hd].
    unfold name_part; cbn [take_until]; fold (name_part raw).
    destruct (_endsName c 0) eqn:Hc.
    + destruct name as [| d name]; cbn; [split; reflexivity |].
      destruct (Ascii.eqb d NUL); split; (reflexivity || discriminate).
    + destruct name as [| d name]; cbn [hd c_str take_until];
        [cbn; split; discriminate |].
      fold (c_str name).
      destruct (Ascii.eqb d NUL) eqn:Hd; [split; discriminate |].
      destruct (Ascii.eqb c d) eqn:Hcd; cbn [negb].
      * apply Ascii.eqb_eq in Hcd. subst d.
        change 1%N with (0 + 1)%N. rewrite _namesMatch_shift, IH.
        split; [intros ->; reflexivity | intros H; injection H; auto].
      * apply Ascii.eqb_neq in Hcd.
        split; [discriminate | intros H; injection H; intros; contradiction].
Qed.

Lemma _namesMatchNocase_spec (raw name : list ascii) :
  _namesMatchNocase raw name 0 = true <->
  fold_case (name_part raw) = fold_case (c_str name).
Proof.
  revert name. induction raw as [| c raw IH]; intros name.
  - rewrite _namesMatchNocase_step, !char_at_0. cbn [hd]. rewrite endsName_NUL.
    destruct name as [| d name]; cbn; [split; reflexivity |].
    destruct (Ascii.eqb d NUL); split; (reflexivity || discriminate).
  - rewrite _namesMatchNocase_step, !char_at_0. cbn [hd].
    unfold name_part; cbn [take_until]; fold (name_part raw).
    destruct (_endsName c 0) eqn:Hc.
    + destruct name as [| d name]; cbn; [split; reflexivity |].
      destruct (Ascii.eqb d NUL); split; (reflexivity || discriminate).
    + destruct name as [| d name]; cbn [hd c_str take_until];
        [cbn; split; discriminate |].
      fold (c_str name).
      destruct (Ascii.eqb d NUL) eqn:Hd; [split; discriminate |].
      cbn [fold_case map]. fold (fold_case (name_part raw)).
      fold (fold_case (c_str name)).
      destruct (Ascii.eqb (_toLowercaseAscii c) (_toLowercaseAscii d))
        eqn:Hcd; cbn [negb].
      * apply Ascii.eqb_eq in Hcd. rewrite Hcd.
        change 1%N with (0 + 1)%N. rewrite _namesMatchNocase_shift, IH.
        split; [intros ->; reflexivity | intros H; injection H; auto].
      * apply Ascii.eqb_neq in Hcd.
        split; [discriminate | intros H; injection H; intros; contradiction].
Qed.

(** *** ASCII case folding *)

Lemma _toLowercaseAscii_code (c : ascii) :
  N_of_ascii (_toLowercaseAscii c)
  = if is_upper c then (N_of_ascii c + 32)%N else N_of_ascii c.
Proof.
  unfold _toLowercaseAscii, is_upper.
  change 0x41%N with 65%N. change 0x5A%N with 90%N. change 0x20%N with 32%N.
  destruct ((65 <=? N_of_ascii c) && (N_of_ascii c <=? 90))%N eqn:Hup;
    [| reflexivity].
  apply andb_true_iff in Hup. destruct Hup as [Hlo Hhi].
  apply N.leb_le in Hlo. apply N.leb_le in Hhi.
  apply N_ascii_embedding. lia.
Qed.

Lemma N_of_ascii_inj (a b : ascii) : N_of_ascii a = N_of_ascii b -> a = b.
Proof.
  intros H. rewrite <- (ascii_N_embedding a), <- (ascii_N_embedding b), H.
  reflexivity.
Qed.

Lemma _toLowercaseAscii_same_letter (a b : ascii) :
  _toLowercaseAscii a = _toLowercaseAscii b <-> same_letter a b.
Proof.
  split.
  - intros H. apply (f_equal N_of_ascii) in H.
    rewrite !_toLowercaseAscii_code in H. unfold same_letter.
    destruct (is_upper a) eqn:Ha, (is_upper b) eqn:Hb.
    + left. apply N_of_ascii_inj. lia.
    + right. left. split; [reflexivity | lia].
    + right. right. split; [reflexivity | lia].
    + left. apply N_of_ascii_inj. exact H.
  - intros Hsame. apply N_of_ascii_inj. rewrite !_toLowercaseAscii_code.
    destruct Hsame as [-> | [[Ha Hb] | [Hb Ha]]]; [reflexivity | |].
    + rewrite Ha.
      assert (is_upper b = false) as ->; [| lia].
      unfold is_upper in *. apply andb_true_iff in Ha. destruct Ha as [Hlo Hhi].
      apply N.leb_le in Hlo. apply N.leb_le in Hhi.
      apply andb_false_iff. right. apply N.leb_gt. lia.
    + rewrite Hb.
      assert (is_upper a = false) as ->; [| lia].
      unfold is_upper in *. apply andb_true_iff in Hb. destruct Hb as [Hlo Hhi].
      apply N.leb_le in Hlo. apply N.leb_le in Hhi.
      apply andb_false_iff. right. apply N.leb_gt. lia.
Qed.

(** The folded strings are equal exactly when the strings are equal up to
    letter case. *)
Lemma fold_case_equal_ignoring_case (s t : list ascii) :
  fold_case s = fold_case t <-> equal_ignoring_case s t.
Proof.
  unfold fold_case, equal_ignoring_case. revert t.
  induction s as [| a s IH]; intros [| b t]; cbn [map].
  - split; [constructor | reflexivity].
  - split; [discriminate | intros H; inversion H].
  - split; [discriminate | intros H; inversion H].
  - split.
    + intros H. injection H as Hab Hst. constructor.
      * apply _toLowercaseAscii_same_letter, Hab.
      * apply IH, Hst.
    + intros H. inversion H as [| ? ? ? ? Hab Hst]; subst. f_equal.
      * apply _toLowercaseAscii_same_letter, Hab.
      * apply IH, Hst.
Qed.

(** ** Linear scans

    The three lookup loops share one shape; their properties are proved once,
    from the closed form of the defining equation. *)

Section Linear_scan.

Variables (A : Type) (table : list A) (size : N) (test : A -> bool).
Variables (miss : bool -> result N) (loop : bool -> N -> result N).

Hypothesis size_table : size = N.of_nat (length table).
Hypothesis loop_step : forall throw_exception index,
  loop throw_exception index =
  if (index =? size)%N then miss throw_exception
  else match nth_error table (N.to_nat index) with
       | Some x =>
           if test x then Return index
           else loop throw_exception (index + 1)
       | None => Undefined
       end.

Lemma scan_from (throw_exception : bool) (distance : nat) :
  forall index,
    (index <= size)%N ->
    distance = N.to_nat (size - index) ->
    (exists found,
        loop throw_exception index = Return found /\
        (index <= found < size)%N /\
        match_at test table found = true /\
        forall j, (index <= j < found)%N -> match_at test table j = false)
    \/
    (loop throw_exception index = miss throw_exception /\
     forall j, (index <= j < size)%N -> match_at test table j = false).
Proof.
  induction distance as [| distance IH]; intros index Hle Hd.
  - right. assert (index = size) by lia. subst index.
    rewrite loop_step, N.eqb_refl. split; [reflexivity | intros; lia].
  - rewrite loop_step.
    destruct (N.eqb_spec index size) as [-> | Hne]; [lia |].
    destruct (nth_error table (N.to_nat index)) as [x |] eqn:Hx.
    + destruct (test x) eqn:Htest.
      * left. exists index. split; [reflexivity |].
        split; [lia |].
        split; [unfold match_at; rewrite Hx; exact Htest | intros; lia].
      * destruct (IH (index + 1)%N)
          as [(found & Hr & Hb & Hm & Hfirst) | [Hr Hnone]];
          try lia.
        -- left. exists found. split; [exact Hr |].
           split; [lia |]. split; [exact Hm |].
           intros j Hj. destruct (N.eq_dec j index) as [-> | Hji].
           ++ unfold match_at. rewrite Hx. exact Htest.
           ++ apply Hfirst. lia.
        -- right. split; [exact Hr |].
           intros j Hj. destruct (N.eq_dec j index) as [-> | Hji].
           ++ unfold match_at. rewrite Hx. exact Htest.
           ++ apply Hnone. lia.
    + exfalso. apply nth_error_None in Hx. lia.
Qed.

(** From index 0 the scan returns the first match, or reports the miss when
    no entry matches. *)
Lemma scan_outcome (throw_exception : bool) :
  (exists found,
      loop throw_exception 0 = Return found /\
      (found < size)%N /\ first_match test table found)
  \/
  (loop throw_exception 0 = miss throw_exception /\
   forall j, match_at test table j = false).
Proof.
  destruct (scan_from throw_exception (N.to_nat size) 0%N)
    as [(found & Hr & Hb & Hm & Hfirst) | [Hr Hnone]]; try lia.
  - left. exists found. split; [exact Hr |]. split; [lia |].
    split; [exact Hm |]. intros j Hj. apply Hfirst. lia.
  - right. split; [exact Hr |]. intros j.
    destruct (N.lt_ge_cases j size) as [Hlt | Hge]; [apply Hnone; lia |].
    unfold match_at.
    assert (nth_error table (N.to_nat j) = None) as ->
      by (apply nth_error_None; lia).
    reflexivity.
Qed.

Lemma scan_hit (throw_exception : bool) :
  (exists x, In x table /\ test x = true) ->
  exists found,
    loop throw_exception 0 = Return found /\
    (found < size)%N /\ first_match test table found.
Proof.
  intros Hsome.
  destruct (scan_outcome throw_exception) as [Hfound | [_ Hnone]];
    [exact Hfound |].
  exfalso. destruct Hsome as (x & Hin & Ht).
  apply In_nth_error in Hin. destruct Hin as (n & Hn).
  specialize (Hnone (N.of_nat n)). unfold match_at in Hnone.
  rewrite Nat2N.id, Hn in Hnone. congruence.
Qed.

Lemma scan_miss (throw_exception : bool) :
  (forall x, In x table -> test x = false) ->
  loop throw_exception 0 = miss throw_exception.
Proof.
  intros Hnone.
  destruct (scan_outcome throw_exception)
    as [(found & _ & _ & [Hm _]) | [Hr _]]; [| exact Hr].
  exfalso. unfold match_at in Hm.
  destruct (nth_error table (N.to_nat found)) as [x |] eqn:Hx;
    [| discriminate Hm].
  apply nth_error_In in Hx. rewrite (Hnone x Hx) in Hm. discriminate Hm.
Qed.

End Linear_scan.

(** ** The loops of the class, in closed form *)

Lemma _from_int_loop_step (values : list Z) (value : Z) (throw_exception : bool)
  (index : N) :
  _from_int_loop values value throw_exception index =
  if (index =? _size values)%N then int_miss throw_exception
  else match nth_error values (N.to_nat index) with
       | Some v =>
           if (v =? value)%Z then Return index
           else _from_int_loop values value throw_exception (index + 1)
       | None => Undefined
       end.
Proof. apply _from_int_loop_equation. Qed.

Lemma _from_string_loop_step (values : list Z) (names : list (list ascii))
  (name : list ascii) (throw_exception : bool) (index : N) :
  _from_string_loop values names name throw_exception index =
  if (index =? _size values)%N then string_miss throw_exception
  else match nth_error names (N.to_nat index) with
       | Some raw =>
           if _namesMatch raw name 0 then Return index
           else _from_string_loop values names name throw_exception (index + 1)
       | None => Undefined
       end.
Proof. apply _from_string_loop_equation. Qed.

Lemma _from_string_nocase_loop_step (values : list Z)
  (names : list (list ascii)) (name : list ascii) (throw_exception : bool)
  (index : N) :
  _from_string_nocase_loop values names name throw_exception index =
  if (index =? _size values)%N then nocase_miss throw_exception
  else match nth_error names (N.to_nat index) with
       | Some raw =>
           if _namesMatchNocase raw name 0 then Return index
           else _from_string_nocase_loop values names name throw_exception
                  (index + 1)
       | None => Undefined
       end.
Proof. apply _from_string_nocase_loop_equation. Qed.

Lemma to_string_loop_step (values : list Z) (self : _Enum) (index : N) :
  to_string_loop values self index =
  if (index <? _size values)%N
  then match nth_error values (N.to_nat index) with
       | Some v =>
           if (v =? _value self)%Z then processed_name index
           else to_string_loop values self (index + 1)
       | None => lift Undefined
       end
  else lift (Throw (domain_error "Enum::_to_string: invalid enum value")).
Proof. apply to_string_loop_equation. Qed.

Lemma _findMinLoop_step (values : list Z) (valueCount index : N) (best : Z) :
  _range._findMinLoop values valueCount index best =
  if (index =? valueCount)%N then Return best
  else match nth_error values (N.to_nat index) with
       | Some v =>
           if (v <? best)%Z
           then _range._findMinLoop values valueCount (index + 1) v
           else _range._findMinLoop values valueCount (index + 1) best
       | None => Undefined
       end.
Proof. apply _range._findMinLoop_equation. Qed.

Lemma _findMaxLoop_step (values : list Z) (valueCount index : N) (best : Z) :
  _range._findMaxLoop values valueCount index best =
  if (index =? valueCount)%N then Return best
  else match nth_error values (N.to_nat index) with
       | Some v =>
           if (v >? best)%Z
           then _range._findMaxLoop values valueCount (index + 1) v
           else _range._findMaxLoop values valueCount (index + 1) best
       | None => Undefined
       end.
Proof. apply _range._findMaxLoop_equation. Qed.

(** ** Matching entries *)

Lemma match_at_true {A : Type} (test : A -> bool) (table : list A) (i : N) :
  match_at test table i = true <->
  exists x, nth_error table (N.to_nat i) = Some x /\ test x = true.
Proof.
  unfold match_at. destruct (nth_error table (N.to_nat i)) as [x |].
  - split; [intros H; exists x; auto | intros (y & Hy & Ht); congruence].
  - split; [discriminate | intros (y & Hy & _); discriminate].
Qed.

Lemma match_at_lt {A : Type} (test : A -> bool) (table : list A) (i : N) :
  match_at test table i = true -> (i < N.of_nat (length table))%N.
Proof.
  intros H. apply match_at_true in H. destruct H as (x & Hx & _).
  assert (N.to_nat i < length table)%nat
    by (apply nth_error_Some; congruence).
  lia.
Qed.

Lemma some_match_iff {A : Type} (test : A -> bool) (table : list A) :
  (exists i, match_at test table i = true) <->
  (exists x, In x table /\ test x = true).
Proof.
  split.
  - intros (i & H). apply match_at_true in H. destruct H as (x & Hx & Ht).
    exists x. split; [eapply nth_error_In; exact Hx | exact Ht].
  - intros (x & Hin & Ht). apply In_nth_error in Hin. destruct Hin as (n & Hn).
    exists (N.of_nat n). apply match_at_true. exists x.
    rewrite Nat2N.id. auto.
Qed.

Lemma no_match_iff {A : Type} (test : A -> bool) (table : list A) :
  (forall i, match_at test table i = false) <->
  (forall x, In x table -> test x = false).
Proof.
  split.
  - intros H x Hin. destruct (test x) eqn:Ht; [| reflexivity].
    destruct (proj2 (some_match_iff test table)) as (i & Hi);
      [exists x; auto |].
    rewrite H in Hi. discriminate Hi.
  - intros H i. destruct (match_at test table i) eqn:Hm; [| reflexivity].
    destruct (proj1 (some_match_iff test table)) as (x & Hin & Ht);
      [exists i; exact Hm |].
    rewrite (H x Hin) in Ht. discriminate Ht.
Qed.

Lemma first_match_unique {A : Type} (test : A -> bool) (table : list A)
  (i j : N) :
  first_match test table i -> first_match test table j -> i = j.
Proof.
  intros [Hi Hbi] [Hj Hbj].
  destruct (N.lt_trichotomy i j) as [Hlt | [Heq | Hgt]]; [| exact Heq |].
  - rewrite (Hbj i Hlt) in Hi. discriminate Hi.
  - rewrite (Hbi j Hgt) in Hj. discriminate Hj.
Qed.

(** A found index reads back an entry of the value table. *)
Lemma value_at_found (_value_array : list Z) (found : N) :
  (found < _size _value_array)%N ->
  exists v, nth_error _value_array (N.to_nat found) = Some v /\
            array_get _value_array found = Return v /\ In v _value_array.
Proof.
  intros Hlt. unfold _size in Hlt.
  destruct (nth_error _value_array (N.to_nat found)) as [v |] eqn:Hv.
  - exists v. unfold array_get. rewrite Hv.
    split; [reflexivity | split; [reflexivity |]].
    eapply nth_error_In; exact Hv.
  - apply nth_error_None in Hv. lia.
Qed.

(** ** The lookups of a generated type *)

Section Lookups.

Variable _value_array : list Z.
Variable _name_array : list (list ascii).

(** The two arrays are filled from the same declaration list. *)
Hypothesis parallel_arrays : length _name_array = length _value_array.

Lemma int_hit (value : Z) (throw_exception : bool) :
  In value _value_array ->
  exists found,
    _from_int_loop _value_array value throw_exception 0 = Return found /\
    (found < _size _value_array)%N /\
    first_match (by_value value) _value_array found.
Proof.
  intros Hin.
  apply (@scan_hit _ _value_array (_size _value_array) (by_value value)
           int_miss (_from_int_loop _value_array value)).
  - reflexivity.
  - intros t i. apply _from_int_loop_step.
  - exists value. split; [exact Hin | apply Z.eqb_refl].
Qed.

Lemma int_none (value : Z) (throw_exception : bool) :
  ~ In value _value_array ->
  _from_int_loop _value_array value throw_exception 0
  = int_miss throw_exception.
Proof.
  intros Hnot.
  apply (@scan_miss _ _value_array (_size _value_array) (by_value value)
           int_miss (_from_int_loop _value_array value)).
  - reflexivity.
  - intros t i. apply _from_int_loop_step.
  - intros x Hin. unfold by_value. apply Z.eqb_neq. congruence.
Qed.

Lemma string_hit (name : list ascii) (throw_exception : bool) :
  (exists raw, In raw _name_array /\ _namesMatch raw name 0 = true) ->
  exists found,
    _from_string_loop _value_array _name_array name throw_exception 0
    = Return found /\
    (found < _size _value_array)%N /\
    first_match (by_name name) _name_array found.
Proof.
  apply (@scan_hit _ _name_array (_size _value_array) (by_name name)
           string_miss (_from_string_loop _value_array _name_array name)).
  - unfold _size. rewrite parallel_arrays. reflexivity.
  - intros t i. apply _from_string_loop_step.
Qed.

Lemma string_none (name : list ascii) (throw_exception : bool) :
  (forall raw, In raw _name_array -> _namesMatch raw name 0 = false) ->
  _from_string_loop _value_array _name_array name throw_exception 0
  = string_miss throw_exception.
Proof.
  apply (@scan_miss _ _name_array (_size _value_array) (by_name name)
           string_miss (_from_string_loop _value_array _name_array name)).
  - unfold _size. rewrite parallel_arrays. reflexivity.
  - intros t i. apply _from_string_loop_step.
Qed.

Lemma nocase_hit (name : list ascii) (throw_exception : bool) :
  (exists raw, In raw _name_array /\ _namesMatchNocase raw name 0 = true) ->
  exists found,
    _from_string_nocase_loop _value_array _name_array name throw_exception 0
    = Return found /\
    (found < _size _value_array)%N /\
    first_match (by_name_nocase name) _name_array found.
Proof.
  apply (@scan_hit _ _name_array (_size _value_array) (by_name_nocase name)
           nocase_miss
           (_from_string_nocase_loop _value_array _name_array name)).
  - unfold _size. rewrite parallel_arrays. reflexivity.
  - intros t i. apply _from_string_nocase_loop_step.
Qed.

Lemma nocase_none (name : list ascii) (throw_exception : bool) :
  (forall raw, In raw _name_array -> _namesMatchNocase raw name 0 = false) ->
  _from_string_nocase_loop _value_array _name_array name throw_exception 0
  = nocase_miss throw_exception.
Proof.
  apply (@scan_miss _ _name_array (_size _value_array) (by_name_nocase name)
           nocase_miss
           (_from_string_nocase_loop _value_array _name_array name)).
  - unfold _size. rewrite parallel_arrays. reflexivity.
  - intros t i. apply _from_string_nocase_loop_step.
Qed.

Lemma name_query_returns (name : list ascii) :
  exists b, _is_valid_name _value_array _name_array name = Return b.
Proof.
  unfold _is_valid_name.
  destruct (existsb (by_name name) _name_array) eqn:Hex.
  - apply existsb_exists in Hex.
    destruct (string_hit name false Hex) as (found & Hr & _).
    rewrite Hr. cbn. eauto.
  - rewrite string_none; [cbn; eauto |].
    intros raw Hin. destruct (_namesMatch raw name 0) eqn:Hm; [| reflexivity].
    assert (existsb (by_name name) _name_array = true)
      by (apply existsb_exists; exists raw; auto).
    congruence.
Qed.

Lemma nocase_query_returns (name : list ascii) :
  exists b, _is_valid_nocase _value_array _name_array name = Return b.
Proof.
  unfold _is_valid_nocase.
  destruct (existsb (by_name_nocase name) _name_array) eqn:Hex.
  - apply existsb_exists in Hex.
    destruct (nocase_hit name false Hex) as (found & Hr & _).
    rewrite Hr. cbn. eauto.
  - rewrite nocase_none; [cbn; eauto |].
    intros raw Hin.
    destruct (_namesMatchNocase raw name 0) eqn:Hm; [| reflexivity].
    assert (existsb (by_name_nocase name) _name_array = true)
      by (apply existsb_exists; exists raw; auto).
    congruence.
Qed.

(** C2: an integer of the value table is valid and [_from_int] returns an
    instance holding it; any other integer is invalid and [_from_int] throws
    the invalid-integer [runtime_error]; the three [_is_valid] queries return
    a boolean on every input.  [_size] is a [size_t] quotient of [sizeof]s, so
    it is at most [SIZE_MAX], the not-found sentinel. *)
Theorem is_valid_and_from_int (value : Z) (name : list ascii) :
  (_size _value_array <= _ENUM_NOT_FOUND)%N ->
  (In value _value_array ->
   _is_valid _value_array value = Return true /\
   exists e, _from_int _value_array value = Return e /\ to_int e = value) /\
  (~ In value _value_array ->
   _is_valid _value_array value = Return false /\
   _from_int _value_array value
   = Throw (runtime_error "Enum::from_int: invalid integer value")) /\
  (exists b, _is_valid _value_array value = Return b) /\
  (exists b, _is_valid_name _value_array _name_array name = Return b) /\
  (exists b, _is_valid_nocase _value_array _name_array name = Return b).
Proof.
  intros Hfits.
  assert (Hin : In value _value_array ->
                _is_valid _value_array value = Return true /\
                exists e, _from_int _value_array value = Return e /\
                          to_int e = value).
  { intros Hin. split.
    - destruct (int_hit value false Hin) as (found & Hr & Hlt & _).
      unfold _is_valid. rewrite Hr. cbn [bind]. f_equal.
      apply negb_true_iff, N.eqb_neq. lia.
    - destruct (int_hit value true Hin) as (found & Hr & Hlt & [Hm _]).
      unfold _from_int. rewrite Hr. cbn [bind].
      destruct (value_at_found _value_array found Hlt) as (v & Hnth & Hget & _).
      rewrite Hget. cbn [bind]. eexists. split; [reflexivity |].
      unfold match_at in Hm. rewrite Hnth in Hm.
      apply Z.eqb_eq in Hm. exact Hm. }
  assert (Hout : ~ In value _value_array ->
                 _is_valid _value_array value = Return false /\
                 _from_int _value_array value
                 = Throw (runtime_error
                            "Enum::from_int: invalid integer value")).
  { intros Hnot. split.
    - unfold _is_valid. rewrite (int_none value false Hnot). reflexivity.
    - unfold _from_int. rewrite (int_none value true Hnot). reflexivity. }
  split; [exact Hin |]. split; [exact Hout |].
  split; [| split; [apply name_query_returns | apply nocase_query_returns]].
  destruct (in_dec Z.eq_dec value _value_array) as [Hyes | Hno].
  - exists true. apply Hin, Hyes.
  - exists false. apply Hout, Hno.
Qed.

(** C4: whenever some entry matches, each of the three lookup loops, in
    either mode, returns the smallest matching index. *)
Theorem first_matching_index_wins (throw_exception : bool) :
  (forall value,
      In value _value_array ->
      exists found,
        _from_int_loop _value_array value throw_exception 0 = Return found /\
        first_match (by_value value) _value_array found) /\
  (forall name,
      (exists raw, In raw _name_array /\ _namesMatch raw name 0 = true) ->
      exists found,
        _from_string_loop _value_array _name_array name throw_exception 0
        = Return found /\
        first_match (by_name name) _name_array found) /\
  (forall name,
      (exists raw, In raw _name_array /\ _namesMatchNocase raw name 0 = true) ->
      exists found,
        _from_string_nocase_loop _value_array _name_array name
          throw_exception 0 = Return found /\
        first_match (by_name_nocase name) _name_array found).
Proof.
  split; [| split].
  - intros value Hin.
    destruct (int_hit value throw_exception Hin) as (found & Hr & _ & Hf).
    exists found. auto.
  - intros name Hsome.
    destruct (string_hit name throw_exception Hsome) as (found & Hr & _ & Hf).
    exists found. auto.
  - intros name Hsome.
    destruct (nocase_hit name throw_exception Hsome) as (found & Hr & _ & Hf).
    exists found. auto.
Qed.

(** C8: [_from_string_nocase] returns an instance exactly when the name part
    of some declaration equals the query up to the case of ASCII letters
    (equivalently: after [_toLowercaseAscii] is mapped over both); otherwise
    it throws the invalid-name [runtime_error]. *)
Theorem from_string_nocase_succeeds_iff (name : list ascii) :
  ((exists e, _from_string_nocase _value_array _name_array name = Return e)
   <->
   (exists raw, In raw _name_array /\
                equal_ignoring_case (name_part raw) (c_str name))) /\
  (forall s t, equal_ignoring_case s t <-> fold_case s = fold_case t) /\
  ((forall raw, In raw _name_array ->
                ~ equal_ignoring_case (name_part raw) (c_str name)) ->
   _from_string_nocase _value_array _name_array name
   = Throw (runtime_error
              "Enum::_from_string_nocase: invalid string argument")).
Proof.
  assert (Hmiss :
    (forall raw, In raw _name_array ->
                 ~ equal_ignoring_case (name_part raw) (c_str name)) ->
    _from_string_nocase _value_array _name_array name
    = Throw (runtime_error
               "Enum::_from_string_nocase: invalid string argument")).
  { intros Hnone. unfold _from_string_nocase.
    rewrite nocase_none; [reflexivity |].
    intros raw Hin.
    destruct (_namesMatchNocase raw name 0) eqn:Hm; [| reflexivity].
    apply _namesMatchNocase_spec, fold_case_equal_ignoring_case in Hm.
    elim (Hnone raw Hin Hm). }
  split; [| split; [| exact Hmiss]].
  - split.
    + intros (e & He).
      destruct (existsb (by_name_nocase name) _name_array) eqn:Hex.
      * apply existsb_exists in Hex. destruct Hex as (raw & Hin & Hm).
        exists raw. split; [exact Hin |].
        apply fold_case_equal_ignoring_case, _namesMatchNocase_spec. exact Hm.
      * rewrite Hmiss in He; [discriminate He |].
        intros raw Hin Heq.
        apply fold_case_equal_ignoring_case, _namesMatchNocase_spec in Heq.
        assert (existsb (by_name_nocase name) _name_array = true)
          by (apply existsb_exists; exists raw; auto).
        congruence.
    + intros (raw & Hin & Heq).
      apply fold_case_equal_ignoring_case, _namesMatchNocase_spec in Heq.
      destruct (nocase_hit name true) as (found & Hr & Hlt & _);
        [exists raw; auto |].
      unfold _from_string_nocase. rewrite Hr. cbn [bind].
      destruct (value_at_found _value_array found Hlt) as (v & _ & Hget & _).
      rewrite Hget. cbn [bind]. eauto.
  - intros s t. symmetry. apply fold_case_equal_ignoring_case.
Qed.

(** C10: when every raw name starts with a character that does not end a
    name, the empty string is found by no lookup: both queries answer false
    and both conversions throw. *)
Theorem empty_name_is_never_found :
  (forall raw, In raw _name_array -> _endsName (char_at raw 0) 0 = false) ->
  _is_valid_name _value_array _name_array (chars "") = Return false /\
  _is_valid_nocase _value_array _name_array (chars "") = Return false /\
  _from_string _value_array _name_array (chars "")
  = Throw (runtime_error "Enum::_from_string: invalid string argument") /\
  _from_string_nocase _value_array _name_array (chars "")
  = Throw (runtime_error
             "Enum::_from_string_nocase: invalid string argument").
Proof.
  intros Hstart.
  assert (Hexact : forall raw, In raw _name_array ->
                               _namesMatch raw (chars "") 0 = false).
  { intros raw Hin. rewrite _namesMatch_step, (Hstart raw Hin). reflexivity. }
  assert (Hnocase : forall raw, In raw _name_array ->
                                _namesMatchNocase raw (chars "") 0 = false).
  { intros raw Hin.
    rewrite _namesMatchNocase_step, (Hstart raw Hin). reflexivity. }
  unfold _is_valid_name, _is_valid_nocase, _from_string, _from_string_nocase.
  rewrite !string_none, !nocase_none by assumption.
  repeat split.
Qed.

End Lookups.

(** ** The range analyzer *)

Lemma _findMinLoop_spec (values : list Z) (distance : nat) :
  forall index best,
    (N.to_nat index <= length values)%nat ->
    distance = (length values - N.to_nat index)%nat ->
    exists m,
      _range._findMinLoop values (N.of_nat (length values)) index best
      = Return m /\
      (m <= best)%Z /\ (m = best \/ In m values) /\
      forall j v, (N.to_nat index <= j)%nat ->
                  nth_error values j = Some v -> (m <= v)%Z.
Proof.
  induction distance as [| distance IH]; intros index best Hle Hd.
  - rewrite _findMinLoop_step.
    assert (index = N.of_nat (length values)) as -> by lia.
    rewrite N.eqb_refl. exists best.
    split; [reflexivity |]. split; [lia |]. split; [left; reflexivity |].
    intros j v Hj Hv.
    assert (j < length values)%nat by (apply nth_error_Some; congruence).
    lia.
  - rewrite _findMinLoop_step.
    destruct (N.eqb_spec index (N.of_nat (length values))) as [Heq | Hne];
      [lia |].
    destruct (nth_error values (N.to_nat index)) as [v |] eqn:Hv;
      [| apply nth_error_None in Hv; lia].
    assert (Hin : In v values) by (eapply nth_error_In; exact Hv).
    destruct (Z.ltb_spec v best) as [Hlt | Hge].
    + destruct (IH (index + 1)%N v) as (m & Hr & Hmb & Hm & Hall); try lia.
      exists m. split; [exact Hr |]. split; [lia |].
      split; [right; destruct Hm as [-> | Hm]; assumption |].
      intros j w Hj Hw.
      destruct (Nat.eq_dec j (N.to_nat index)) as [-> | Hji].
      * rewrite Hv in Hw. injection Hw as <-. exact Hmb.
      * apply (Hall j w); [lia | exact Hw].
    + destruct (IH (index + 1)%N best) as (m & Hr & Hmb & Hm & Hall); try lia.
      exists m. split; [exact Hr |]. split; [exact Hmb |].
      split; [exact Hm |].
      intros j w Hj Hw.
      destruct (Nat.eq_dec j (N.to_nat index)) as [-> | Hji].
      * rewrite Hv in Hw. injection Hw as <-. lia.
      * apply (Hall j w); [lia | exact Hw].
Qed.

Lemma _findMaxLoop_spec (values : list Z) (distance : nat) :
  forall index best,
    (N.to_nat index <= length values)%nat ->
    distance = (length values - N.to_nat index)%nat ->
    exists m,
      _range._findMaxLoop values (N.of_nat (length values)) index best
      = Return m /\
      (best <= m)%Z /\ (m = best \/ In m values) /\
      forall j v, (N.to_nat index <= j)%nat ->
                  nth_error values j = Some v -> (v <= m)%Z.
Proof.
  induction distance as [| distance IH]; intros index best Hle Hd.
  - rewrite _findMaxLoop_step.
    assert (index = N.of_nat (length values)) as -> by lia.
    rewrite N.eqb_refl. exists best.
    split; [reflexivity |]. split; [lia |]. split; [left; reflexivity |].
    intros j v Hj Hv.
    assert (j < length values)%nat by (apply nth_error_Some; congruence).
    lia.
  - rewrite _findMaxLoop_step.
    destruct (N.eqb_spec index (N.of_nat (length values))) as [Heq | Hne];
      [lia |].
    destruct (nth_error values (N.to_nat index)) as [v |] eqn:Hv;
      [| apply nth_error_None in Hv; lia].
    assert (Hin : In v values) by (eapply nth_error_In; exact Hv).
    rewrite Z.gtb_ltb.
    destruct (Z.ltb_spec best v) as [Hlt | Hge].
    + destruct (IH (index + 1)%N v) as (m & Hr & Hmb & Hm & Hall); try lia.
      exists m. split; [exact Hr |]. split; [lia |].
      split; [right; destruct Hm as [-> | Hm]; assumption |].
      intros j w Hj Hw.
      destruct (Nat.eq_dec j (N.to_nat index)) as [-> | Hji].
      * rewrite Hv in Hw. injection Hw as <-. exact Hmb.
      * apply (Hall j w); [lia | exact Hw].
    + destruct (IH (index + 1)%N best) as (m & Hr & Hmb & Hm & Hall); try lia.
      exists m. split; [exact Hr |]. split; [exact Hmb |].
      split; [exact Hm |].
      intros j w Hj Hw.
      destruct (Nat.eq_dec j (N.to_nat index)) as [-> | Hji].
      * rewrite Hv in Hw. injection Hw as <-. lia.
      * apply (Hall j w); [lia | exact Hw].
Qed.

(** [_min] is the least and [_max] the greatest entry of a non-empty table. *)
Lemma _min_spec (values : list Z) :
  values <> [] ->
  exists m, _min values = Return m /\ In m values /\
            forall v, In v values -> (m <= v)%Z.
Proof.
  intros Hne. destruct values as [| first rest]; [contradiction |].
  unfold _min, _range._findMin, _size, array_get. cbn [nth_error N.to_nat bind].
  destruct (@_findMinLoop_spec (first :: rest) (length rest) 1%N first)
    as (m & Hr & Hmb & Hm & Hall); [cbn [length]; lia | cbn [length]; lia |].
  exists m. split; [exact Hr |]. split.
  - destruct Hm as [-> | Hm]; [left; reflexivity | exact Hm].
  - intros v Hin. apply In_nth_error in Hin. destruct Hin as (j & Hj).
    destruct j as [| j]; [cbn in Hj; injection Hj as <-; exact Hmb |].
    apply (Hall (S j) v); [cbn; lia | exact Hj].
Qed.

Lemma _max_spec (values : list Z) :
  values <> [] ->
  exists m, _max values = Return m /\ In m values /\
            forall v, In v values -> (v <= m)%Z.
Proof.
  intros Hne. destruct values as [| first rest]; [contradiction |].
  unfold _max, _range._findMax, _size, array_get. cbn [nth_error N.to_nat bind].
  destruct (@_findMaxLoop_spec (first :: rest) (length rest) 1%N first)
    as (m & Hr & Hmb & Hm & Hall); [cbn [length]; lia | cbn [length]; lia |].
  exists m. split; [exact Hr |]. split.
  - destruct Hm as [-> | Hm]; [left; reflexivity | exact Hm].
  - intros v Hin. apply In_nth_error in Hin. destruct Hin as (j & Hj).
    destruct j as [| j]; [cbn in Hj; injection Hj as <-; exact Hmb |].
    apply (Hall (S j) v); [cbn; lia | exact Hj].
Qed.

(** Pairwise distinct integers of an interval are at most as many as the
    interval is long. *)
Lemma distinct_in_interval (values : list Z) (lo hi : Z) :
  (lo <= hi)%Z ->
  NoDup values ->
  (forall v, In v values -> (lo <= v <= hi)%Z) ->
  (Z.of_nat (length values) <= hi - lo + 1)%Z.
Proof.
  intros Hlohi Hnodup Hrange.
  assert (Hmap : NoDup (map (fun v => Z.to_nat (v - lo)) values)).
  { apply NoDup_map_NoDup_ForallPairs; [| exact Hnodup].
    intros x y Hx Hy Heq.
    apply Hrange in Hx. apply Hrange in Hy. lia. }
  assert (Hincl : incl (map (fun v => Z.to_nat (v - lo)) values)
                       (seq 0 (Z.to_nat (hi - lo + 1)))).
  { intros n Hn. apply in_map_iff in Hn. destruct Hn as (v & <- & Hv).
    apply Hrange in Hv. apply in_seq. lia. }
  pose proof (NoDup_incl_length Hmap Hincl) as Hlen.
  rewrite length_map, length_seq in Hlen.
  lia.
Qed.

Lemma max_value_promoted_fits (t : IntegralType) :
  (bits t <= 64)%Z -> (max_value (promoted t) < 2 ^ 64)%Z.
Proof.
  intros Hbits. unfold promoted.
  destruct (Z.ltb_spec (bits t) (bits int)) as [Hnarrow | Hwide].
  - reflexivity.
  - cbn [bits int] in Hwide. unfold max_value. destruct (is_signed t).
    + assert (2 ^ (bits t - 1) <= 2 ^ 64)%Z
        by (apply Z.pow_le_mono_r; lia).
      lia.
    + assert (2 ^ bits t <= 2 ^ 64)%Z by (apply Z.pow_le_mono_r; lia).
      lia.
Qed.

Lemma min_value_promoted_nonpos (t : IntegralType) :
  (min_value (promoted t) <= 0)%Z.
Proof.
  unfold promoted.
  destruct (Z.ltb_spec (bits t) (bits int)); [discriminate |].
  unfold min_value. destruct (is_signed t); [| lia].
  pose proof (Z.pow_nonneg 2 (bits t - 1)). lia.
Qed.

(** An arithmetic result between 0 and the largest value of the type is
    exact. *)
Lemma arithmetic_exact (t : IntegralType) (z : Z) :
  (0 <= z <= max_value t)%Z -> (min_value t <= 0)%Z ->
  arithmetic t z = Return z.
Proof.
  intros Hz Hmin. unfold arithmetic, representable.
  destruct (is_signed t) eqn:Hs.
  - destruct (Z.leb_spec (min_value t) z); [| lia].
    destruct (Z.leb_spec z (max_value t)); [reflexivity | lia].
  - unfold max_value in Hz. rewrite Hs in Hz.
    rewrite Z.mod_small by lia. reflexivity.
Qed.

Section Range.

Variable _Integral : IntegralType.
Variable _value_array : list Z.

(** C5, as the code has it: for a non-empty declaration list the minimum and
    maximum are found, and whenever [max - min + 1] is representable in the
    promoted underlying type, [_span] is that number; it is at least [_size]
    when the declared values are pairwise distinct. *)
Theorem span_is_bounding_box (Hnonempty : _value_array <> [])
  (Hwidth : (bits _Integral <= 64)%Z) :
  exists mn mx,
    _min _value_array = Return mn /\ _max _value_array = Return mx /\
    ((mx - mn + 1 <= max_value (promoted _Integral))%Z ->
     _span _Integral _value_array = Return (Z.to_N (mx - mn + 1)) /\
     (NoDup _value_array ->
      (_size _value_array <= Z.to_N (mx - mn + 1))%N)).
Proof.
  destruct (_min_spec _value_array Hnonempty) as (mn & Hmin & Hmn_in & Hmn).
  destruct (_max_spec _value_array Hnonempty) as (mx & Hmax & Hmx_in & Hmx).
  exists mn, mx. split; [exact Hmin |]. split; [exact Hmax |].
  intros Hfits.
  assert (Hle : (mn <= mx)%Z) by (apply Hmn, Hmx_in).
  pose proof (max_value_promoted_fits _Integral Hwidth) as Hsize.
  pose proof (min_value_promoted_nonpos _Integral) as Hneg.
  split.
  - unfold _span. rewrite Hmax, Hmin. cbn [bind].
    rewrite arithmetic_exact by lia. cbn [bind].
    rewrite arithmetic_exact by lia. cbn [bind].
    unfold to_size_t. rewrite Z.mod_small by lia. reflexivity.
  - intros Hnodup.
    assert (Z.of_nat (length _value_array) <= mx - mn + 1)%Z.
    { apply distinct_in_interval; [exact Hle | exact Hnodup |].
      intros v Hv. split; [apply Hmn, Hv | apply Hmx, Hv]. }
    unfold _size. lia.
Qed.

End Range.

(** C5, as stated, fails for [{X, Y = X}]: both values are 0, so the span is
    1 while the size is 2. *)
Lemma span_below_size_with_alias :
  Alias._value_array <> [] /\
  _span Alias._Integral Alias._value_array = Return 1%N /\
  _size Alias._value_array = 2%N /\
  ~ (_size Alias._value_array <= 1)%N.
Proof.
  split; [discriminate |]. split; [reflexivity |]. split; [reflexivity |].
  cbv. intros H. apply H. reflexivity.
Qed.

(** In an unsigned 32-bit type that declares both 0 and the largest value,
    [_max - _min + 1] wraps to 0. *)
Example span_wraps_unsigned :
  _span {| is_signed := false; bits := 32 |} [0; 4294967295]%Z = Return 0%N.
Proof. reflexivity. Qed.

Lemma span_is_bounding_box_witness :
  Mixed._value_array <> [] /\
  (bits Mixed._Integral <= 64)%Z /\
  exists mn mx,
    _min Mixed._value_array = Return mn /\
    _max Mixed._value_array = Return mx /\
    ((mx - mn + 1 <= max_value (promoted Mixed._Integral))%Z ->
     _span Mixed._Integral Mixed._value_array = Return (Z.to_N (mx - mn + 1))
     /\ (NoDup Mixed._value_array ->
         (_size Mixed._value_array <= Z.to_N (mx - mn + 1))%N)).
Proof.
  assert (Hne : Mixed._value_array <> []) by discriminate.
  assert (Hw : (bits Mixed._Integral <= 64)%Z) by (cbn; lia).
  split; [exact Hne |]. split; [exact Hw |].
  exact (span_is_bounding_box Mixed._Integral Mixed._value_array Hne Hw).
Defined.

(** [ENUM(Mixed, int, A = 10, B, C = 5)]: minimum 5, maximum 11, span 7,
    size 3. *)
Example mixed_range :
  _min Mixed._value_array = Return 5%Z /\
  _max Mixed._value_array = Return 11%Z /\
  _span Mixed._Integral Mixed._value_array = Return 7%N /\
  _size Mixed._value_array = 3%N.
Proof. repeat split. Qed.

(** ** The name processor *)

Lemma array_get_app {A : Type} (before : list A) (x : A) (after : list A) :
  array_get (before ++ x :: after) (N.of_nat (length before)) = Return x.
Proof.
  unfold array_get. rewrite Nat2N.id, nth_error_app2, Nat.sub_diag by lia.
  reflexivity.
Qed.

Lemma array_set_app {A : Type} (before : list (option A)) (old : option A)
  (after : list (option A)) (x : A) :
  array_set (before ++ old :: after) (N.of_nat (length before)) x
  = Return (before ++ Some x :: after).
Proof.
  unfold array_set. rewrite Nat2N.id.
  destruct (Nat.ltb_spec (length before) (length (before ++ old :: after)))
    as [_ | Hge]; [| rewrite length_app in Hge; cbn in Hge; lia].
  rewrite firstn_app, Nat.sub_diag, firstn_all. cbn [firstn].
  rewrite app_nil_r.
  rewrite skipn_app, skipn_all2 by lia.
  replace (S (length before) - length before)%nat with 1%nat by lia.
  reflexivity.
Qed.

Lemma name_part_not_NUL (raw : list ascii) :
  forall c, In c (name_part raw) -> Ascii.eqb c NUL = false.
Proof.
  unfold name_part. induction raw as [| d raw IH]; intros c Hin;
    [contradiction |].
  cbn [take_until] in Hin. destruct (_endsName d 0) eqn:Hd; [contradiction |].
  destruct Hin as [<- | Hin]; [| apply IH, Hin].
  destruct (Ascii.eqb_spec d NUL) as [-> | _]; [| reflexivity].
  rewrite endsName_NUL in Hd. discriminate Hd.
Qed.

Lemma name_part_cons (c : ascii) (raw : list ascii) :
  name_part (c :: raw) = if _endsName c 0 then [] else c :: name_part raw.
Proof. reflexivity. Qed.

(** [strpbrk] with the name enders, falling back on [strlen], measures the
    name part. *)
Lemma symbolCount_spec (raw : list ascii) :
  match strpbrk raw _ENUM_NAME_ENDERS with
  | None => strlen raw
  | Some nameEnd => nameEnd
  end = N.of_nat (length (name_part raw)).
Proof.
  induction raw as [| c raw IH]; [reflexivity |].
  rewrite name_part_cons, _endsName_cases.
  cbn [strpbrk strlen].
  destruct (Ascii.eqb_spec c NUL) as [-> | Hnul]; [reflexivity |].
  change (firstn (N.to_nat (strlen _ENUM_NAME_ENDERS)) _ENUM_NAME_ENDERS)
    with ["="; " "; "009"; "010"]%char.
  change ["="; " "; "009"; "010"; "000"]%char
    with (["="; " "; "009"; "010"] ++ [NUL])%char.
  rewrite existsb_app.
  destruct (existsb (Ascii.eqb c) ["="; " "; "009"; "010"]%char);
    [reflexivity |].
  cbn [existsb orb]. apply Ascii.eqb_neq in Hnul. rewrite Hnul.
  cbn [orb length]. rewrite Nat2N.inj_succ, <- IH.
  destruct (strpbrk raw _ENUM_NAME_ENDERS); cbn [option_map]; lia.
Qed.

Lemma name_part_le_strlen (raw : list ascii) :
  (N.of_nat (length (name_part raw)) <= strlen raw)%N.
Proof.
  induction raw as [| c raw IH]; [reflexivity |].
  rewrite name_part_cons. cbn [strlen].
  destruct (Ascii.eqb_spec c NUL) as [-> | Hnul];
    [rewrite endsName_NUL; reflexivity |].
  destruct (_endsName c 0); cbn [length]; lia.
Qed.

(** [strncpy] of a name part fills exactly the cells it is aimed at. *)
Lemma strncpy_name_part (raw : list ascii) :
  forall before hole after,
    length hole = length (name_part raw) ->
    strncpy (before ++ hole ++ after) (N.of_nat (length before)) raw
      (length (name_part raw))
    = Return (before ++ map Some (name_part raw) ++ after).
Proof.
  induction raw as [| c raw IH]; intros before hole after Hlen.
  - cbn in Hlen. apply length_zero_iff_nil in Hlen. subst hole. reflexivity.
  - rewrite name_part_cons in *. destruct (_endsName c 0) eqn:Hc.
    + cbn in Hlen. apply length_zero_iff_nil in Hlen. subst hole. reflexivity.
    + destruct hole as [| h hole]; [discriminate Hlen |].
      cbn [length] in *. cbn [strncpy].
      rewrite char_at_0. cbn [hd tl].
      rewrite <- app_comm_cons, array_set_app. cbn [bind].
      assert (Ascii.eqb c NUL = false) as ->.
      { destruct (Ascii.eqb_spec c NUL) as [-> | _]; [| reflexivity].
        rewrite endsName_NUL in Hc. discriminate Hc. }
      replace (N.of_nat (length before) + 1)%N
        with (N.of_nat (length (before ++ [Some c])))
        by (rewrite length_app; cbn; lia).
      replace (before ++ Some c :: hole ++ after)
        with ((before ++ [Some c]) ++ hole ++ after)
        by (rewrite <- app_assoc; reflexivity).
      rewrite IH by lia.
      rewrite <- app_assoc. reflexivity.
Qed.

Lemma bytes_loop (rawNames : list (list ascii)) :
  forall rest seen acc,
    rawNames = seen ++ rest ->
    for_loop_from (length rest) (N.of_nat (length seen))
      (fun index bytesNeeded =>
         raw <- array_get rawNames index;;
         Return (bytesNeeded + (strlen raw + 1))%N)
      acc
    = Return (acc + sum_N (map (fun raw => strlen raw + 1) rest))%N.
Proof.
  induction rest as [| raw rest IH]; intros seen acc Hsplit.
  - cbn. rewrite N.add_0_r. reflexivity.
  - cbn [for_loop_from length]. rewrite Hsplit at 1.
    rewrite array_get_app. cbn [bind].
    replace (N.of_nat (length seen) + 1)%N
      with (N.of_nat (length (seen ++ [raw])))
      by (rewrite length_app; cbn; lia).
    rewrite IH by (rewrite <- app_assoc; exact Hsplit).
    cbn [map sum_N]. f_equal. lia.
Qed.

Lemma packed_names_cons (raw : list ascii) (rest : list (list ascii)) :
  packed_names (raw :: rest) = name_part raw ++ NUL :: packed_names rest.
Proof.
  unfold packed_names. cbn [map concat]. rewrite <- app_assoc. reflexivity.
Qed.

Lemma trim_loop (rawNames : list (list ascii)) :
  forall rest seen pointers holes written free,
    rawNames = seen ++ rest ->
    length pointers = length seen ->
    length holes = length rest ->
    (length (packed_names rest) <= length free)%nat ->
    for_loop_from (length rest) (N.of_nat (length seen))
      (fun index '(processedNames, nameStorage, writePointer) =>
         raw <- array_get rawNames index;;
         let nameEnd := strpbrk raw _ENUM_NAME_ENDERS in
         let symbolCount :=
           match nameEnd with
           | None => strlen raw
           | Some nameEnd => nameEnd
           end in
         nameStorage <-
           strncpy nameStorage writePointer raw (N.to_nat symbolCount);;
         processedNames <- array_set processedNames index writePointer;;
         let writePointer := (writePointer + symbolCount)%N in
         nameStorage <- array_set nameStorage writePointer NUL;;
         Return (processedNames, nameStorage, (writePointer + 1)%N))
      (map Some pointers ++ holes, map Some written ++ free,
       N.of_nat (length written))
    = Return
        (map Some (pointers
                   ++ name_offsets rest (N.of_nat (length written))),
         map Some (written ++ packed_names rest)
         ++ skipn (length (packed_names rest)) free,
         N.of_nat (length (written ++ packed_names rest))).
Proof.
  induction rest as [| raw rest IH];
    intros seen pointers holes written free Hsplit Hptr Hholes Hfree.
  - destruct holes; [| discriminate Hholes].
    cbn. rewrite !app_nil_r. reflexivity.
  - destruct holes as [| hole holes]; [discriminate Hholes |].
    rewrite packed_names_cons in *.
    rewrite length_app in Hfree. cbn [length] in Hfree, Hholes.
    cbn [for_loop_from length]. rewrite Hsplit at 1.
    rewrite array_get_app. cbn [bind].
    rewrite symbolCount_spec, Nat2N.id.
    (* the cells the name goes to, the cell of its terminator, the rest *)
    set (n := length (name_part raw)) in *.
    assert (Hcut : free = firstn n free ++ skipn n free)
      by (symmetry; apply firstn_skipn).
    destruct (skipn n free) as [| terminator free'] eqn:Hrest.
    { exfalso. apply (f_equal (@length _)) in Hcut.
      rewrite length_app, length_firstn in Hcut. cbn in Hcut. lia. }
    rewrite Hcut at 1.
    replace (N.of_nat (length written))
      with (N.of_nat (length (map Some written)))
      by (rewrite length_map; reflexivity).
    rewrite strncpy_name_part
      by (rewrite length_firstn; fold n; lia).
    cbn [bind].
    replace (N.of_nat (length seen))
      with (N.of_nat (length (map Some pointers)))
      by (rewrite length_map, Hptr; reflexivity).
    rewrite array_set_app. cbn [bind].
    replace (N.of_nat (length (map Some written)) + N.of_nat n)%N
      with (N.of_nat (length (map Some written ++ map Some (name_part raw))))
      by (rewrite length_app, !length_map; fold n; lia).
    rewrite app_assoc, array_set_app. cbn [bind].
    replace (map Some pointers ++ Some (N.of_nat (length (map Some written)))
                 :: holes)
      with (map Some (pointers ++ [N.of_nat (length written)]) ++ holes)
      by (rewrite map_app, length_map, <- app_assoc; reflexivity).
    replace ((map Some written ++ map Some (name_part raw))
             ++ Some NUL :: free')
      with (map Some (written ++ name_part raw ++ [NUL]) ++ free')
      by (rewrite !map_app, <- !app_assoc; reflexivity).
    replace (N.of_nat (length (map Some written ++ map Some (name_part raw)))
             + 1)%N
      with (N.of_nat (length (written ++ name_part raw ++ [NUL])))
      by (rewrite !length_app, !length_map; cbn [length]; lia).
    replace (N.of_nat (length (map Some pointers)) + 1)%N
      with (N.of_nat (length (seen ++ [raw])))
      by (rewrite length_app, length_map, Hptr; cbn [length]; lia).
    assert (Hfree' : free' = skipn (S n) free).
    { replace (S n) with (1 + n)%nat by lia.
      rewrite <- skipn_skipn, Hrest. reflexivity. }
    rewrite IH.
    + cbn [name_offsets]. fold n.
      replace (N.of_nat (length (written ++ name_part raw ++ [NUL])))
        with (N.of_nat (length written) + N.of_nat n + 1)%N
        by (rewrite !length_app; cbn [length]; fold n; lia).
      rewrite <- !app_assoc. cbn [app].
      rewrite Hfree', skipn_skipn, length_app. cbn [length]. fold n.
      repeat f_equal; try lia;
        rewrite ?length_map, ?length_app; cbn [length]; fold n; lia.
    + rewrite <- app_assoc. exact Hsplit.
    + rewrite !length_app. cbn [length]. lia.
    + exact (eq_add_S _ _ Hholes).
    + rewrite Hfree', length_skipn. lia.
Qed.

Lemma skipn_repeat {A : Type} (x : A) (k n : nat) :
  skipn k (repeat x n) = repeat x (n - k).
Proof.
  revert n. induction k as [| k IH]; intros n.
  - rewrite Nat.sub_0_r. reflexivity.
  - destruct n as [| n]; [reflexivity | cbn; apply IH].
Qed.

Lemma packed_names_length (rawNames : list (list ascii)) :
  N.of_nat (length (packed_names rawNames))
  = sum_N (map (fun raw => N.of_nat (length (name_part raw)) + 1)%N rawNames).
Proof.
  induction rawNames as [| raw rest IH]; [reflexivity |].
  rewrite packed_names_cons, length_app. cbn [length map sum_N].
  rewrite <- IH. lia.
Qed.

(** The names after trimming never need more room than was reserved. *)
Lemma packed_names_fit (rawNames : list (list ascii)) :
  (N.of_nat (length (packed_names rawNames)) <= bytes_needed rawNames)%N.
Proof.
  rewrite packed_names_length. unfold bytes_needed.
  induction rawNames as [| raw rest IH]; [reflexivity |].
  cbn [map sum_N]. pose proof (name_part_le_strlen raw). lia.
Qed.

Lemma _processNames_spec (rawNames : list (list ascii)) :
  _enum._processNames rawNames (N.of_nat (length rawNames))
  = Return (processed_table rawNames).
Proof.
  unfold _enum._processNames, for_loop. rewrite Nat2N.id.
  pose proof (bytes_loop rawNames rawNames [] 0%N eq_refl) as Hbytes.
  cbn [length N.of_nat] in Hbytes. rewrite Hbytes. cbn [bind].
  rewrite N.add_0_l. fold (bytes_needed rawNames).
  pose proof (packed_names_fit rawNames) as Hfit.
  unfold new_array. rewrite Nat2N.id.
  pose proof (trim_loop rawNames rawNames [] []
                (repeat None (length rawNames)) []
                (repeat None (N.to_nat (bytes_needed rawNames)))
                eq_refl eq_refl) as Htrim.
  cbn [length N.of_nat map app] in Htrim. rewrite Htrim.
  - cbn [bind]. rewrite skipn_repeat. reflexivity.
  - apply repeat_length.
  - rewrite repeat_length. lia.
Qed.

(** C7, as the code has it: the character storage [_processNames] allocates
    has one cell per character of every whole raw name plus one per name;
    the trimmed names with their terminators fit into it. *)
Theorem name_storage_size (rawNames : list (list ascii)) :
  exists table,
    _enum._processNames rawNames (N.of_nat (length rawNames)) = Return table /\
    N.of_nat (length (nameStorage table))
    = sum_N (map (fun raw => strlen raw + 1)%N rawNames) /\
    (sum_N (map (fun raw => N.of_nat (length (name_part raw)) + 1)%N rawNames)
     <= N.of_nat (length (nameStorage table)))%N.
Proof.
  exists (processed_table rawNames).
  split; [apply _processNames_spec |].
  pose proof (packed_names_fit rawNames) as Hfit.
  assert (Hlen : N.of_nat (length (nameStorage (processed_table rawNames)))
                 = bytes_needed rawNames).
  { cbn [nameStorage processed_table].
    rewrite length_app, length_map, repeat_length. lia. }
  split; [exact Hlen |].
  rewrite Hlen, <- packed_names_length. exact Hfit.
Qed.

(** C7, as stated, fails for [{A = 10, B, C = 5}]: 15 cells are allocated,
    the trimmed names with their terminators take 6. *)
Lemma name_storage_exceeds_trimmed :
  exists table,
    _enum._processNames Mixed._name_array 3 = Return table /\
    length (nameStorage table) = 15%nat /\
    sum_N (map (fun raw => N.of_nat (length (name_part raw)) + 1)%N
             Mixed._name_array) = 6%N /\
    N.of_nat (length (nameStorage table)) <> 6%N.
Proof.
  eexists. split; [reflexivity |]. split; [reflexivity |].
  split; [reflexivity | discriminate].
Qed.

(** *** Reading the processed names *)

Lemma string_of_terminated (s more : list ascii) (tail : list (option ascii)) :
  (forall c, In c s -> Ascii.eqb c NUL = false) ->
  string_of (map Some (s ++ NUL :: more) ++ tail) = Return s.
Proof.
  induction s as [| c s IH]; intros Hs; [reflexivity |].
  cbn [app map string_of]. rewrite (Hs c) by (left; reflexivity).
  rewrite IH by (intros d Hd; apply Hs; right; exact Hd).
  reflexivity.
Qed.

Lemma read_processed (tail : list (option ascii)) :
  forall rest written i raw,
    nth_error rest i = Some raw ->
    exists p,
      nth_error (name_offsets rest (N.of_nat (length written))) i = Some p /\
      string_at (map Some (written ++ packed_names rest) ++ tail) p
      = Return (name_part raw).
Proof.
  induction rest as [| first rest IH]; intros written i raw Hi;
    [destruct i; discriminate Hi |].
  destruct i as [| i].
  - injection Hi as ->. exists (N.of_nat (length written)).
    split; [reflexivity |].
    unfold string_at. rewrite Nat2N.id, map_app, <- app_assoc.
    rewrite skipn_app, skipn_all2, length_map, Nat.sub_diag
      by (rewrite length_map; lia).
    cbn [skipn app]. rewrite packed_names_cons.
    apply string_of_terminated, name_part_not_NUL.
  - cbn [nth_error] in Hi.
    destruct (IH (written ++ name_part first ++ [NUL]) i raw Hi)
      as (p & Hp & Hread).
    exists p. cbn [name_offsets nth_error]. rewrite packed_names_cons.
    replace (N.of_nat (length written)
             + N.of_nat (length (name_part first)) + 1)%N
      with (N.of_nat (length (written ++ name_part first ++ [NUL])))
      by (rewrite !length_app; cbn [length]; lia).
    split; [exact Hp |].
    rewrite <- !app_assoc in Hread. exact Hread.
Qed.

(** Entry [index] of the processed table points at the name part of raw
    name [index]. *)
Lemma processed_name_spec (rawNames : list (list ascii)) (index : N)
  (raw : list ascii) :
  nth_error rawNames (N.to_nat index) = Some raw ->
  exists p,
    processed_name index (Some (processed_table rawNames))
    = (Return p, Some (processed_table rawNames)) /\
    string_at (nameStorage (processed_table rawNames)) p
    = Return (name_part raw).
Proof.
  intros Hraw.
  destruct (read_processed
              (repeat None (N.to_nat (bytes_needed rawNames)
                            - length (packed_names rawNames)))
              rawNames [] (N.to_nat index) raw Hraw) as (p & Hp & Hread).
  exists p. split; [| exact Hread].
  unfold processed_name, array_read. cbn [processedNames processed_table].
  rewrite nth_error_map. cbn [length N.of_nat] in Hp. rewrite Hp.
  reflexivity.
Qed.

Section Names.

Variable _value_array : list Z.
Variable _name_array : list (list ascii).
Hypothesis parallel_arrays : length _name_array = length _value_array.

Lemma _processNames_member (st : statics) :
  statics_ok _value_array _name_array st ->
  _processNames _value_array _name_array st
  = (Return tt, Some (processed_table _name_array)).
Proof.
  assert (Hbuilt :
    _enum._processNames _name_array (_size _value_array)
    = Return (processed_table _name_array)).
  { unfold _size. rewrite <- parallel_arrays. apply _processNames_spec. }
  intros [-> | (table & Htable & ->)].
  - unfold _processNames. rewrite Hbuilt. reflexivity.
  - rewrite Hbuilt in Htable. injection Htable as <-. reflexivity.
Qed.

Lemma to_string_loop_from (self : _Enum) (distance : nat) :
  forall index,
    (index <= _size _value_array)%N ->
    distance = N.to_nat (_size _value_array - index) ->
    (exists found,
        (index <= found < _size _value_array)%N /\
        match_at (by_value (_value self)) _value_array found = true /\
        (forall j, (index <= j < found)%N ->
                   match_at (by_value (_value self)) _value_array j = false) /\
        to_string_loop _value_array self index = processed_name found)
    \/
    ((forall j, (index <= j < _size _value_array)%N ->
                match_at (by_value (_value self)) _value_array j = false) /\
     to_string_loop _value_array self index
     = lift (Throw (domain_error "Enum::_to_string: invalid enum value"))).
Proof.
  induction distance as [| distance IH]; intros index Hle Hd.
  - right. rewrite to_string_loop_step.
    destruct (N.ltb_spec index (_size _value_array)); [lia |].
    split; [intros; lia | reflexivity].
  - rewrite to_string_loop_step.
    destruct (N.ltb_spec index (_size _value_array)) as [Hlt | Hge]; [| lia].
    destruct (nth_error _value_array (N.to_nat index)) as [v |] eqn:Hv;
      [| apply nth_error_None in Hv; unfold _size in Hlt; lia].
    destruct (Z.eqb v (_value self)) eqn:Htest.
    + left. exists index. split; [lia |].
      split; [unfold match_at, by_value; rewrite Hv; exact Htest |].
      split; [intros; lia | reflexivity].
    + assert (Hhere :
        match_at (by_value (_value self)) _value_array index = false)
        by (unfold match_at, by_value; rewrite Hv; exact Htest).
      destruct (IH (index + 1)%N)
        as [(found & Hb & Hm & Hfirst & Hr) | [Hnone Hr]];
        try lia.
      * left. exists found. split; [lia |]. split; [exact Hm |].
        split; [| exact Hr].
        intros j Hj. destruct (N.eq_dec j index) as [-> | Hji];
          [exact Hhere | apply Hfirst; lia].
      * right. split; [| exact Hr].
        intros j Hj. destruct (N.eq_dec j index) as [-> | Hji];
          [exact Hhere | apply Hnone; lia].
Qed.

(** [to_string] on an instance whose value is in the table: the pointer it
    returns reads as the name part of the first declaration with that
    value. *)
Lemma to_string_found (self : _Enum) (st : statics) :
  statics_ok _value_array _name_array st ->
  In (_value self) _value_array ->
  exists found raw p,
    first_match (by_value (_value self)) _value_array found /\
    nth_error _name_array (N.to_nat found) = Some raw /\
    to_string _value_array _name_array self st
    = (Return p, Some (processed_table _name_array)) /\
    string_at (nameStorage (processed_table _name_array)) p
    = Return (name_part raw).
Proof.
  intros Hst Hin.
  destruct (to_string_loop_from self (N.to_nat (_size _value_array)) 0%N)
    as [(found & Hb & Hm & Hfirst & Hr) | [Hnone _]]; try lia.
  - assert (Hraw : exists raw,
               nth_error _name_array (N.to_nat found) = Some raw).
    { destruct (nth_error _name_array (N.to_nat found)) as [raw |] eqn:Hraw;
        [eauto |].
      apply nth_error_None in Hraw. unfold _size in Hb. lia. }
    destruct Hraw as (raw & Hraw).
    destruct (processed_name_spec _name_array found raw Hraw)
      as (p & Hp & Hread).
    exists found, raw, p.
    split; [split; [exact Hm | intros j Hj; apply Hfirst; lia] |].
    split; [exact Hraw |]. split; [| exact Hread].
    unfold to_string, bind_stateful.
    rewrite (_processNames_member st Hst), Hr. exact Hp.
  - exfalso. apply In_nth_error in Hin. destruct Hin as (n & Hn).
    assert (n < length _value_array)%nat
      by (apply nth_error_Some; congruence).
    assert (Hrange : (0 <= N.of_nat n < _size _value_array)%N)
      by (unfold _size; lia).
    specialize (Hnone (N.of_nat n) Hrange).
    unfold match_at, by_value in Hnone.
    rewrite Nat2N.id, Hn, Z.eqb_refl in Hnone. discriminate Hnone.
Qed.

Lemma to_string_not_found (self : _Enum) (st : statics) :
  statics_ok _value_array _name_array st ->
  ~ In (_value self) _value_array ->
  to_string _value_array _name_array self st
  = (Throw (domain_error "Enum::_to_string: invalid enum value"),
     Some (processed_table _name_array)).
Proof.
  intros Hst Hnot.
  destruct (to_string_loop_from self (N.to_nat (_size _value_array)) 0%N)
    as [(found & Hb & Hm & _) | [_ Hr]]; try lia.
  - exfalso. apply Hnot. apply match_at_true in Hm.
    destruct Hm as (v & Hv & Hveq). unfold by_value in Hveq.
    apply Z.eqb_eq in Hveq. subst v. eapply nth_error_In; exact Hv.
  - unfold to_string, bind_stateful.
    rewrite (_processNames_member st Hst), Hr. reflexivity.
Qed.

End Names.

(** ** Conversions of a generated type *)

Lemma take_until_fixed (stop : ascii -> bool) (s : list ascii) :
  (forall c, In c s -> stop c = false) -> take_until stop s = s.
Proof.
  induction s as [| c s IH]; intros Hs; [reflexivity |].
  cbn [take_until]. rewrite (Hs c) by (left; reflexivity).
  rewrite IH by (intros d Hd; apply Hs; right; exact Hd). reflexivity.
Qed.

Lemma take_until_app (stop : ascii -> bool) (s rest : list ascii) :
  (forall c, In c s -> stop c = false) ->
  stop (char_at rest 0) = true ->
  stop NUL = true ->
  take_until stop (s ++ rest) = s.
Proof.
  intros Hs Hrest Hnul. induction s as [| c s IH].
  - destruct rest as [| d rest]; [reflexivity |].
    rewrite char_at_0 in Hrest. cbn in *. rewrite Hrest. reflexivity.
  - cbn [app take_until]. rewrite (Hs c) by (left; reflexivity).
    rewrite IH by (intros d Hd; apply Hs; right; exact Hd). reflexivity.
Qed.

(** A name part is a complete string: read as a [const char*] it is
    itself. *)
Lemma c_str_name_part (raw : list ascii) :
  c_str (name_part raw) = name_part raw.
Proof. apply take_until_fixed, name_part_not_NUL. Qed.

(** A raw name that is an identifier followed by nothing or by an ender
    has the identifier as its name part. *)
Lemma name_part_of_declaration (identifier suffix : list ascii) :
  (forall c, In c identifier -> _endsName c 0 = false) ->
  _endsName (char_at suffix 0) 0 = true ->
  name_part (identifier ++ suffix) = identifier.
Proof.
  intros Hid Hsuffix. apply take_until_app; [exact Hid | exact Hsuffix |].
  apply endsName_NUL.
Qed.

Section Conversions.

Variable _value_array : list Z.
Variable _name_array : list (list ascii).
Hypothesis parallel_arrays : length _name_array = length _value_array.

Lemma _from_int_in_table (value : Z) :
  In value _value_array ->
  _from_int _value_array value = Return {| _value := value |}.
Proof.
  intros Hin.
  destruct (int_hit _value_array value true Hin) as (found & Hr & Hlt & [Hm _]).
  unfold _from_int. rewrite Hr. cbn [bind].
  destruct (value_at_found _value_array found Hlt) as (v & Hnth & Hget & _).
  rewrite Hget. cbn [bind].
  unfold match_at, by_value in Hm. rewrite Hnth in Hm.
  apply Z.eqb_eq in Hm. subst v. reflexivity.
Qed.

Lemma _from_int_returns_member (value : Z) (e : _Enum) :
  _from_int _value_array value = Return e -> In (_value e) _value_array.
Proof.
  intros He. destruct (in_dec Z.eq_dec value _value_array) as [Hin | Hnot].
  - rewrite (_from_int_in_table value Hin) in He. injection He as <-.
    exact Hin.
  - unfold _from_int in He.
    rewrite (int_none _value_array value true Hnot) in He.
    discriminate He.
Qed.

Lemma _from_string_returns_member (name : list ascii) (e : _Enum) :
  _from_string _value_array _name_array name = Return e ->
  In (_value e) _value_array.
Proof.
  intros He. unfold _from_string in He.
  destruct (existsb (by_name name) _name_array) eqn:Hex.
  - apply existsb_exists in Hex.
    destruct (string_hit _value_array _name_array parallel_arrays name true Hex)
      as (found & Hr & Hlt & _).
    rewrite Hr in He. cbn [bind] in He.
    destruct (value_at_found _value_array found Hlt) as (v & _ & Hget & Hin).
    rewrite Hget in He. cbn [bind] in He. injection He as <-. exact Hin.
  - rewrite string_none in He; [discriminate He | exact parallel_arrays |].
    intros raw Hin. destruct (_namesMatch raw name 0) eqn:Hm; [| reflexivity].
    assert (existsb (by_name name) _name_array = true)
      by (apply existsb_exists; exists raw; auto).
    congruence.
Qed.

Lemma _from_string_nocase_returns_member (name : list ascii) (e : _Enum) :
  _from_string_nocase _value_array _name_array name = Return e ->
  In (_value e) _value_array.
Proof.
  intros He. unfold _from_string_nocase in He.
  destruct (existsb (by_name_nocase name) _name_array) eqn:Hex.
  - apply existsb_exists in Hex.
    destruct (nocase_hit _value_array _name_array parallel_arrays name true Hex)
      as (found & Hr & Hlt & _).
    rewrite Hr in He. cbn [bind] in He.
    destruct (value_at_found _value_array found Hlt) as (v & _ & Hget & Hin).
    rewrite Hget in He. cbn [bind] in He. injection He as <-. exact Hin.
  - rewrite nocase_none in He; [discriminate He | exact parallel_arrays |].
    intros raw Hin.
    destruct (_namesMatchNocase raw name 0) eqn:Hm; [| reflexivity].
    assert (existsb (by_name_nocase name) _name_array = true)
      by (apply existsb_exists; exists raw; auto).
    congruence.
Qed.

(** With pairwise distinct identifiers, [_from_string] on the name part of
    declaration [index] returns the value of that declaration. *)
Lemma _from_string_name_part (index : nat) (raw : list ascii) (c : Z) :
  NoDup (map name_part _name_array) ->
  nth_error _name_array index = Some raw ->
  nth_error _value_array index = Some c ->
  _from_string _value_array _name_array (name_part raw)
  = Return {| _value := c |}.
Proof.
  intros Hdistinct Hraw Hc.
  destruct (string_hit _value_array _name_array parallel_arrays
              (name_part raw) true) as (found & Hr & Hlt & [Hm _]).
  { exists raw. split; [eapply nth_error_In; exact Hraw |].
    apply _namesMatch_spec. symmetry. apply c_str_name_part. }
  apply match_at_true in Hm. destruct Hm as (raw' & Hraw' & Hm).
  unfold by_name in Hm. apply _namesMatch_spec in Hm.
  rewrite c_str_name_part in Hm.
  assert (Hsame : N.to_nat found = index).
  { apply (proj1 (NoDup_nth_error (map name_part _name_array)) Hdistinct).
    - rewrite length_map. apply nth_error_Some. congruence.
    - rewrite !nth_error_map, Hraw', Hraw. cbn. f_equal. exact Hm. }
  unfold _from_string. rewrite Hr. cbn [bind].
  unfold array_get. rewrite Hsame, Hc. reflexivity.
Qed.

End Conversions.

Section Names_and_values.

Variable _value_array : list Z.
Variable _name_array : list (list ascii).
Hypothesis parallel_arrays : length _name_array = length _value_array.

(** C3, as the code has it: [to_string] returns the raw name of the first
    declaration that holds the instance's value, cut at its first name
    ender; when that raw name is an identifier followed by nothing or by an
    ender, the identifier is returned. *)
Theorem to_string_is_first_name_part (self : _Enum) (st : statics)
  (index : N) (raw : list ascii) :
  statics_ok _value_array _name_array st ->
  first_match (by_value (_value self)) _value_array index ->
  nth_error _name_array (N.to_nat index) = Some raw ->
  string_result (to_string _value_array _name_array self st)
  = Return (name_part raw) /\
  (forall identifier suffix,
      raw = identifier ++ suffix ->
      (forall c, In c identifier -> _endsName c 0 = false) ->
      _endsName (char_at suffix 0) 0 = true ->
      string_result (to_string _value_array _name_array self st)
      = Return identifier).
Proof.
  intros Hst Hfirst Hraw.
  assert (Hin : In (_value self) _value_array).
  { destruct Hfirst as [Hm _]. apply match_at_true in Hm.
    destruct Hm as (v & Hv & Hveq). unfold by_value in Hveq.
    apply Z.eqb_eq in Hveq. subst v. eapply nth_error_In; exact Hv. }
  destruct (to_string_found _value_array _name_array parallel_arrays self st
              Hst Hin) as (found & raw' & p & Hfound & Hraw' & Hto & Hread).
  assert (found = index) as -> by (eapply first_match_unique; eassumption).
  assert (raw' = raw) as -> by congruence.
  assert (Hresult :
    string_result (to_string _value_array _name_array self st)
    = Return (name_part raw)) by (rewrite Hto; exact Hread).
  split; [exact Hresult |].
  intros identifier suffix -> Hid Hsuffix.
  rewrite Hresult, name_part_of_declaration by assumption. reflexivity.
Qed.

(** C9: [to_string] throws the [domain_error] exactly when the held value is
    not in the value table, and returns a name when it is; the validated
    conversions only build instances whose value is in the table, while
    [_from_int_unchecked] builds one for any integer. *)
Theorem to_string_throws_iff_not_in_table (self : _Enum) (st : statics) :
  statics_ok _value_array _name_array st ->
  (fst (to_string _value_array _name_array self st)
   = Throw (domain_error "Enum::_to_string: invalid enum value")
   <-> ~ In (_value self) _value_array) /\
  (In (_value self) _value_array ->
   exists name,
     string_result (to_string _value_array _name_array self st)
     = Return name) /\
  (forall value e,
      _from_int _value_array value = Return e ->
      In (_value e) _value_array) /\
  (forall name e,
      _from_string _value_array _name_array name = Return e ->
      In (_value e) _value_array) /\
  (forall name e,
      _from_string_nocase _value_array _name_array name = Return e ->
      In (_value e) _value_array) /\
  (forall value,
      ~ In value _value_array ->
      fst (to_string _value_array _name_array (_from_int_unchecked value) st)
      = Throw (domain_error "Enum::_to_string: invalid enum value")).
Proof.
  intros Hst.
  assert (Hout : forall e : _Enum,
    ~ In (_value e) _value_array ->
    fst (to_string _value_array _name_array e st)
    = Throw (domain_error "Enum::_to_string: invalid enum value")).
  { intros e Hnot.
    rewrite (to_string_not_found _value_array _name_array parallel_arrays
               e st Hst Hnot).
    reflexivity. }
  split; [| split; [| split; [| split; [| split]]]].
  - split; [| apply Hout].
    intros Hthrow Hin.
    destruct (to_string_found _value_array _name_array parallel_arrays self
                st Hst Hin) as (found & raw & p & _ & _ & Hto & _).
    rewrite Hto in Hthrow. discriminate Hthrow.
  - intros Hin.
    destruct (to_string_found _value_array _name_array parallel_arrays self
                st Hst Hin) as (found & raw & p & _ & _ & Hto & Hread).
    exists (name_part raw). rewrite Hto. exact Hread.
  - apply _from_int_returns_member.
  - apply _from_string_returns_member, parallel_arrays.
  - apply _from_string_nocase_returns_member, parallel_arrays.
  - intros value Hnot. apply Hout. exact Hnot.
Qed.

(** C1: for the constant declared at [index], the name from the processed
    table converts back through [_from_string], [to_int] and [_from_int] to
    an instance equal to the constant; so does the name [to_string] returns
    for the constant.  The identifiers of one enumeration are pairwise
    distinct (C++ rejects a second declaration of a name), and each raw name
    starts with its identifier, hence the hypothesis on the name parts. *)
Theorem name_and_integer_round_trip (index : N) (c : Z) (raw : list ascii)
  (st : statics) :
  NoDup (map name_part _name_array) ->
  statics_ok _value_array _name_array st ->
  nth_error _value_array (N.to_nat index) = Some c ->
  nth_error _name_array (N.to_nat index) = Some raw ->
  (exists name back,
      string_result (_getProcessedName _value_array _name_array index st)
      = Return name /\
      name = name_part raw /\
      (e <- _from_string _value_array _name_array name;;
       _from_int _value_array (to_int e)) = Return back /\
      eq_op back {| _value := c |} = true) /\
  (exists name back,
      string_result (to_string _value_array _name_array {| _value := c |} st)
      = Return name /\
      (e <- _from_string _value_array _name_array name;;
       _from_int _value_array (to_int e)) = Return back /\
      eq_op back {| _value := c |} = true).
Proof.
  intros Hdistinct Hst Hc Hraw.
  assert (Hin : In c _value_array) by (eapply nth_error_In; exact Hc).
  assert (Hback : forall i raw_i,
    nth_error _name_array i = Some raw_i ->
    nth_error _value_array i = Some c ->
    (e <- _from_string _value_array _name_array (name_part raw_i);;
     _from_int _value_array (to_int e)) = Return {| _value := c |}).
  { intros i raw_i Hri Hci.
    rewrite (_from_string_name_part _value_array _name_array parallel_arrays
               i raw_i c Hdistinct Hri Hci).
    cbn [bind to_int _value]. apply _from_int_in_table, Hin. }
  split.
  - destruct (processed_name_spec _name_array index raw Hraw)
      as (p & Hp & Hread).
    exists (name_part raw), {| _value := c |}.
    split.
    { unfold _getProcessedName, bind_stateful.
      rewrite (_processNames_member _value_array _name_array parallel_arrays
                 st Hst), Hp.
      exact Hread. }
    split; [reflexivity |].
    split; [apply (Hback (N.to_nat index)); assumption |].
    apply Z.eqb_refl.
  - destruct (to_string_found _value_array _name_array parallel_arrays
                {| _value := c |} st Hst Hin)
      as (found & raw' & p & [Hm _] & Hraw' & Hto & Hread).
    exists (name_part raw'), {| _value := c |}.
    split; [rewrite Hto; exact Hread |].
    split; [| apply Z.eqb_refl].
    apply (Hback (N.to_nat found)); [exact Hraw' |].
    apply match_at_true in Hm. destruct Hm as (v & Hv & Hveq).
    unfold by_value in Hveq. cbn [_value] in Hveq.
    apply Z.eqb_eq in Hveq. subst v. exact Hv.
Qed.

End Names_and_values.

(** ** The generated types of the examples *)

(** C3, as stated for each constant, fails for the alias [Y] of
    [{X, Y = X}]: the instance made from [Y] holds 0 and [to_string] returns
    the name of [X]. *)
Lemma to_string_of_alias :
  nth_error Alias._value_array 1 = Some 0%Z /\
  nth_error Alias._name_array 1 = Some (chars "Y = X") /\
  name_part (chars "Y = X") = chars "Y" /\
  string_result
    (to_string Alias._value_array Alias._name_array {| _value := 0 |} None)
  = Return (chars "X") /\
  chars "X" <> chars "Y".
Proof.
  repeat split; discriminate.
Qed.

Lemma to_string_is_first_name_part_witness :
  length Mixed._name_array = length Mixed._value_array /\
  statics_ok Mixed._value_array Mixed._name_array None /\
  first_match (by_value 5) Mixed._value_array 2 /\
  nth_error Mixed._name_array (N.to_nat 2) = Some (chars "C = 5") /\
  string_result
    (to_string Mixed._value_array Mixed._name_array {| _value := 5 |} None)
  = Return (name_part (chars "C = 5")) /\
  (forall identifier suffix,
      chars "C = 5" = identifier ++ suffix ->
      (forall c, In c identifier -> _endsName c 0 = false) ->
      _endsName (char_at suffix 0) 0 = true ->
      string_result
        (to_string Mixed._value_array Mixed._name_array {| _value := 5 |} None)
      = Return identifier).
Proof.
  assert (Hpar : length Mixed._name_array = length Mixed._value_array)
    by reflexivity.
  assert (Hst : statics_ok Mixed._value_array Mixed._name_array None)
    by (left; reflexivity).
  assert (Hfirst : first_match (by_value 5) Mixed._value_array 2).
  { split; [reflexivity |]. intros earlier Hearlier.
    assert (Hcases : earlier = 0%N \/ earlier = 1%N) by lia.
    destruct Hcases as [-> | ->]; reflexivity. }
  assert (Hraw : nth_error Mixed._name_array (N.to_nat 2)
                 = Some (chars "C = 5")) by reflexivity.
  split; [exact Hpar |]. split; [exact Hst |]. split; [exact Hfirst |].
  split; [exact Hraw |].
  exact (to_string_is_first_name_part Mixed._value_array Mixed._name_array
           Hpar {| _value := 5 |} None 2%N (chars "C = 5") Hst Hfirst Hraw).
Defined.

Lemma name_and_integer_round_trip_witness :
  length Channel._name_array = length Channel._value_array /\
  NoDup (map name_part Channel._name_array) /\
  statics_ok Channel._value_array Channel._name_array None /\
  nth_error Channel._value_array (N.to_nat 1) = Some 1%Z /\
  nth_error Channel._name_array (N.to_nat 1) = Some (chars "GREEN") /\
  (exists name back,
      string_result
        (_getProcessedName Channel._value_array Channel._name_array 1 None)
      = Return name /\
      name = name_part (chars "GREEN") /\
      (e <- _from_string Channel._value_array Channel._name_array name;;
       _from_int Channel._value_array (to_int e)) = Return back /\
      eq_op back {| _value := 1 |} = true) /\
  (exists name back,
      string_result
        (to_string Channel._value_array Channel._name_array
           {| _value := 1 |} None)
      = Return name /\
      (e <- _from_string Channel._value_array Channel._name_array name;;
       _from_int Channel._value_array (to_int e)) = Return back /\
      eq_op back {| _value := 1 |} = true).
Proof.
  assert (Hpar : length Channel._name_array = length Channel._value_array)
    by reflexivity.
  assert (Hdistinct : NoDup (map name_part Channel._name_array)).
  { vm_compute. repeat constructor; cbn; intuition discriminate. }
  assert (Hst : statics_ok Channel._value_array Channel._name_array None)
    by (left; reflexivity).
  assert (Hc : nth_error Channel._value_array (N.to_nat 1) = Some 1%Z)
    by reflexivity.
  assert (Hraw : nth_error Channel._name_array (N.to_nat 1)
                 = Some (chars "GREEN")) by reflexivity.
  split; [exact Hpar |]. split; [exact Hdistinct |]. split; [exact Hst |].
  split; [exact Hc |]. split; [exact Hraw |].
  exact (name_and_integer_round_trip Channel._value_array Channel._name_array
           Hpar 1%N 1%Z (chars "GREEN") None Hdistinct Hst Hc Hraw).
Defined.

Lemma is_valid_and_from_int_witness :
  length Channel._name_array = length Channel._value_array /\
  (_size Channel._value_array <= _ENUM_NOT_FOUND)%N /\
  (In 1%Z Channel._value_array ->
   _is_valid Channel._value_array 1 = Return true /\
   exists e, _from_int Channel._value_array 1 = Return e /\ to_int e = 1%Z) /\
  (~ In 1%Z Channel._value_array ->
   _is_valid Channel._value_array 1 = Return false /\
   _from_int Channel._value_array 1
   = Throw (runtime_error "Enum::from_int: invalid integer value")) /\
  (exists b, _is_valid Channel._value_array 1 = Return b) /\
  (exists b,
      _is_valid_name Channel._value_array Channel._name_array (chars "green")
      = Return b) /\
  (exists b,
      _is_valid_nocase Channel._value_array Channel._name_array (chars "green")
      = Return b).
Proof.
  assert (Hpar : length Channel._name_array = length Channel._value_array)
    by reflexivity.
  assert (Hfits : (_size Channel._value_array <= _ENUM_NOT_FOUND)%N)
    by (vm_compute; discriminate).
  split; [exact Hpar |]. split; [exact Hfits |].
  exact (is_valid_and_from_int Channel._value_array Channel._name_array Hpar
           1%Z (chars "green") Hfits).
Defined.

Lemma first_matching_index_wins_witness :
  length Alias._name_array = length Alias._value_array /\
  (forall value,
      In value Alias._value_array ->
      exists found,
        _from_int_loop Alias._value_array value true 0 = Return found /\
        first_match (by_value value) Alias._value_array found) /\
  (forall name,
      (exists raw, In raw Alias._name_array /\ _namesMatch raw name 0 = true) ->
      exists found,
        _from_string_loop Alias._value_array Alias._name_array name true 0
        = Return found /\
        first_match (by_name name) Alias._name_array found) /\
  (forall name,
      (exists raw,
          In raw Alias._name_array /\ _namesMatchNocase raw name 0 = true) ->
      exists found,
        _from_string_nocase_loop Alias._value_array Alias._name_array name
          true 0 = Return found /\
        first_match (by_name_nocase name) Alias._name_array found).
Proof.
  assert (Hpar : length Alias._name_array = length Alias._value_array)
    by reflexivity.
  split; [exact Hpar |].
  exact (first_matching_index_wins Alias._value_array Alias._name_array Hpar
           true).
Defined.

(** [{X, Y = X}]: looking up 0 finds index 0, the declaration of [X]. *)
Example alias_from_int :
  _from_int_loop Alias._value_array 0 true 0 = Return 0%N /\
  nth_error Alias._name_array 0 = Some (chars "X") /\
  _from_int Alias._value_array 0 = Return {| _value := 0 |}.
Proof. repeat split. Qed.

Lemma from_string_nocase_succeeds_iff_witness :
  length Channel._name_array = length Channel._value_array /\
  ((exists e,
       _from_string_nocase Channel._value_array Channel._name_array
         (chars "gReEn") = Return e)
   <->
   (exists raw, In raw Channel._name_array /\
                equal_ignoring_case (name_part raw) (c_str (chars "gReEn")))).
Proof.
  assert (Hpar : length Channel._name_array = length Channel._value_array)
    by reflexivity.
  split; [exact Hpar |].
  exact (proj1 (from_string_nocase_succeeds_iff Channel._value_array
                  Channel._name_array Hpar (chars "gReEn"))).
Defined.

Example nocase_lookup :
  _from_string_nocase Channel._value_array Channel._name_array (chars "gReEn")
  = Return {| _value := 1 |} /\
  _from_string_nocase Mixed._value_array Mixed._name_array (chars "c")
  = Return {| _value := 5 |} /\
  _from_string_nocase Channel._value_array Channel._name_array (chars "gr")
  = Throw (runtime_error "Enum::_from_string_nocase: invalid string argument").
Proof. repeat split. Qed.

Lemma to_string_throws_iff_not_in_table_witness :
  length Channel._name_array = length Channel._value_array /\
  statics_ok Channel._value_array Channel._name_array None /\
  (fst (to_string Channel._value_array Channel._name_array
          {| _value := 5 |} None)
   = Throw (domain_error "Enum::_to_string: invalid enum value")
   <-> ~ In 5%Z Channel._value_array).
Proof.
  assert (Hpar : length Channel._name_array = length Channel._value_array)
    by reflexivity.
  assert (Hst : statics_ok Channel._value_array Channel._name_array None)
    by (left; reflexivity).
  split; [exact Hpar |]. split; [exact Hst |].
  exact (proj1 (to_string_throws_iff_not_in_table Channel._value_array
                  Channel._name_array Hpar {| _value := 5 |} None Hst)).
Defined.

Lemma empty_name_is_never_found_witness :
  length Mixed._name_array = length Mixed._value_array /\
  (forall raw, In raw Mixed._name_array ->
               _endsName (char_at raw 0) 0 = false) /\
  _is_valid_name Mixed._value_array Mixed._name_array (chars "")
  = Return false /\
  _is_valid_nocase Mixed._value_array Mixed._name_array (chars "")
  = Return false /\
  _from_string Mixed._value_array Mixed._name_array (chars "")
  = Throw (runtime_error "Enum::_from_string: invalid string argument") /\
  _from_string_nocase Mixed._value_array Mixed._name_array (chars "")
  = Throw (runtime_error
             "Enum::_from_string_nocase: invalid string argument").
Proof.
  assert (Hpar : length Mixed._name_array = length Mixed._value_array)
    by reflexivity.
  assert (Hstart : forall raw, In raw Mixed._name_array ->
                               _endsName (char_at raw 0) 0 = false).
  { intros raw [<- | [<- | [<- | []]]]; reflexivity. }
  split; [exact Hpar |]. split; [exact Hstart |].
  exact (empty_name_is_never_found Mixed._value_array Mixed._name_array Hpar
           Hstart).
Defined.

(** The forms of declaration the header lists: [A], [A = AnotherConstant],
    [A = 42], [A=42]. *)
Example declaration_forms :
  name_part (chars "A") = chars "A" /\
  name_part (chars "A = AnotherConstant") = chars "A" /\
  name_part (chars "A = 42") = chars "A" /\
  name_part (chars "A=42") = chars "A" /\
  _namesMatch (chars "A=42") (chars "A") 0 = true /\
  _namesMatch (chars "A = 42") (chars "A ") 0 = false /\
  _namesMatchNocase (chars "Alpha = 1") (chars "aLPHA") 0 = true.
Proof. repeat split. Qed.

(** [ENUM(Channel, int, RED, GREEN, BLUE)] *)
Example channel_scenario :
  string_result
    (to_string Channel._value_array Channel._name_array {| _value := 1 |} None)
  = Return (chars "GREEN") /\
  _from_int Channel._value_array 1 = Return {| _value := 1 |} /\
  _from_int Channel._value_array 5
  = Throw (runtime_error "Enum::from_int: invalid integer value") /\
  _is_valid Channel._value_array 5 = Return false.
Proof. repeat split. Qed.

(** * Further properties of the header *)

(** ** Iteration over [_values] and [_names] *)

Lemma iterator_ne_index (i j : N) :
  iterator_ne {| _index := i |} {| _index := j |} = negb (j =? i)%N.
Proof. reflexivity. Qed.




Section Name_iteration.

Variable _value_array : list Z.
Variable _name_array : list (list ascii).
Hypothesis parallel_arrays : length _name_array = length _value_array.

Lemma statics_ok_built :
  statics_ok _value_array _name_array (Some (processed_table _name_array)).
Proof.
  right. exists (processed_table _name_array). split; [| reflexivity].
  unfold _size. rewrite <- parallel_arrays. apply _processNames_spec.
Qed.

Lemma _getProcessedName_spec (index : N) (raw : list ascii) (st : statics) :
  statics_ok _value_array _name_array st ->
  nth_error _name_array (N.to_nat index) = Some raw ->
  exists p,
    _getProcessedName _value_array _name_array index st
    = (Return p, Some (processed_table _name_array)) /\
    string_at (nameStorage (processed_table _name_array)) p
    = Return (name_part raw).
Proof.
  intros Hst Hraw.
  destruct (processed_name_spec _name_array index raw Hraw) as (p & Hp & Hread).
  exists p. split; [| exact Hread].
  unfold _getProcessedName, bind_stateful.
  rewrite (_processNames_member _value_array _name_array parallel_arrays
             st Hst).
  exact Hp.
Qed.

Lemma range_for_names :
  forall rest seen fuel st,
    _name_array = seen ++ rest ->
    statics_ok _value_array _name_array st ->
    (length rest < fuel)%nat ->
    exists pointers,
      range_for fuel (name_deref _value_array _name_array)
        {| _index := N.of_nat (length seen) |} (iterable_end _value_array) st
      = Some (Return pointers,
              match rest with
              | [] => st
              | _ :: _ => Some (processed_table _name_array)
              end) /\
      map (string_at (nameStorage (processed_table _name_array))) pointers
      = map (fun raw => Return (name_part raw)) rest.
Proof.
  induction rest as [| raw rest IH]; intros seen fuel st Hsplit Hst Hfuel.
  - destruct fuel as [| fuel]; [inversion Hfuel |].
    exists []. split; [| reflexivity].
    cbn [range_for].
    assert (Hend : iterator_ne {| _index := N.of_nat (length seen) |}
                     (iterable_end _value_array) = false).
    { unfold iterable_end, _size.
      rewrite iterator_ne_index, <- parallel_arrays, Hsplit, app_nil_r,
        N.eqb_refl.
      reflexivity. }
    rewrite Hend. reflexivity.
  - destruct fuel as [| fuel]; [inversion Hfuel |].
    cbn [range_for length] in *.
    assert (Hne : iterator_ne {| _index := N.of_nat (length seen) |}
                    (iterable_end _value_array) = true).
    { unfold iterable_end, _size. rewrite iterator_ne_index.
      apply negb_true_iff, N.eqb_neq.
      rewrite <- parallel_arrays, Hsplit, length_app. cbn [length]. lia. }
    rewrite Hne.
    assert (Hraw : nth_error _name_array (N.to_nat (N.of_nat (length seen)))
                   = Some raw).
    { rewrite Nat2N.id, Hsplit, nth_error_app2, Nat.sub_diag by lia.
      reflexivity. }
    destruct (_getProcessedName_spec (N.of_nat (length seen)) raw st Hst Hraw)
      as (p & Hp & Hread).
    assert (Hderef : name_deref _value_array _name_array
                       {| _index := N.of_nat (length seen) |} st
                     = (Return p, Some (processed_table _name_array)))
      by exact Hp.
    rewrite Hderef.
    unfold iterator_incr. cbn [_index].
    replace (N.of_nat (length seen) + 1)%N
      with (N.of_nat (length (seen ++ [raw])))
      by (rewrite length_app; cbn [length]; lia).
    destruct (IH (seen ++ [raw]) fuel (Some (processed_table _name_array)))
      as (pointers & Hrun & Hstrings);
      [rewrite <- app_assoc; exact Hsplit | exact statics_ok_built | lia |].
    exists (p :: pointers). split.
    + rewrite Hrun. destruct rest; reflexivity.
    + cbn [map]. rewrite Hread, Hstrings. reflexivity.
Qed.

(** X2: a range-based [for] over [_names] yields, in declaration order, one
    pointer per declaration, each reading as the declaration's name part;
    afterwards the static member holds the processed table.  The static
    member may be null or already built when the loop starts. *)
Theorem names_iteration (fuel : nat) (st : statics) :
  _name_array <> [] ->
  statics_ok _value_array _name_array st ->
  (N.to_nat (_size _value_array) < fuel)%nat ->
  exists pointers st',
    range_for fuel (name_deref _value_array _name_array) iterable_begin
      (iterable_end _value_array) st
    = Some (Return pointers, st') /\
    statics_ok _value_array _name_array st' /\ st' <> None /\
    strings_at st' pointers
    = map (fun raw => Return (name_part raw)) _name_array.
Proof.
  intros Hnonempty Hst Hfuel.
  destruct (range_for_names _name_array [] fuel st eq_refl Hst)
    as (pointers & Hrun & Hstrings).
  { unfold _size in Hfuel. rewrite parallel_arrays. lia. }
  exists pointers, (Some (processed_table _name_array)).
  split.
  - unfold iterable_begin. cbn [length N.of_nat] in Hrun. rewrite Hrun.
    destruct _name_array; [contradiction | reflexivity].
  - split; [exact statics_ok_built |]. split; [discriminate |].
    exact Hstrings.
Qed.

End Name_iteration.

Lemma names_iteration_witness :
  length Mixed._name_array = length Mixed._value_array /\
  Mixed._name_array <> [] /\
  statics_ok Mixed._value_array Mixed._name_array None /\
  (N.to_nat (_size Mixed._value_array) < 4)%nat /\
  exists pointers st',
    range_for 4 (name_deref Mixed._value_array Mixed._name_array)
      iterable_begin (iterable_end Mixed._value_array) None
    = Some (Return pointers, st') /\
    statics_ok Mixed._value_array Mixed._name_array st' /\ st' <> None /\
    strings_at st' pointers
    = map (fun raw => Return (name_part raw)) Mixed._name_array.
Proof.
  assert (Hpar : length Mixed._name_array = length Mixed._value_array)
    by reflexivity.
  assert (Hne : Mixed._name_array <> []) by discriminate.
  assert (Hst : statics_ok Mixed._value_array Mixed._name_array None)
    by (left; reflexivity).
  assert (Hfuel : (N.to_nat (_size Mixed._value_array) < 4)%nat)
    by (cbn; lia).
  split; [exact Hpar |]. split; [exact Hne |]. split; [exact Hst |].
  split; [exact Hfuel |].
  exact (names_iteration Mixed._value_array Mixed._name_array Hpar 4 None
           Hne Hst Hfuel).
Defined.

(** Iterating over the names of [{A = 10, B, C = 5}]. *)
Example mixed_names :
  match range_for 4 (name_deref Mixed._value_array Mixed._name_array)
          iterable_begin (iterable_end Mixed._value_array) None with
  | Some (Return pointers, st') => strings_at st' pointers
  | _ => []
  end = [Return (chars "A"); Return (chars "B"); Return (chars "C")].
Proof. reflexivity. Qed.

(** ** The cached name table *)

Section Caching.

Variable _value_array : list Z.
Variable _name_array : list (list ascii).
Hypothesis parallel_arrays : length _name_array = length _value_array.




End Caching.


(** ** Lookups by name *)

Section Linear_scan_tests.

Variables (A : Type) (table : list A) (size : N).
Variables (test test' : A -> bool) (miss : bool -> result N).
Variables (loop loop' : bool -> N -> result N).

Hypothesis tests_agree : forall x, In x table -> test x = test' x.
Hypothesis loop_step : forall throw_exception index,
  loop throw_exception index =
  if (index =? size)%N then miss throw_exception
  else match nth_error table (N.to_nat index) with
       | Some x =>
           if test x then Return index
           else loop throw_exception (index + 1)
       | None => Undefined
       end.
Hypothesis loop'_step : forall throw_exception index,
  loop' throw_exception index =
  if (index =? size)%N then miss throw_exception
  else match nth_error table (N.to_nat index) with
       | Some x =>
           if test' x then Return index
           else loop' throw_exception (index + 1)
       | None => Undefined
       end.

(** Two scans of one table whose tests agree on its entries agree. *)
Lemma scans_agree (throw_exception : bool) (distance : nat) :
  forall index,
    (length table - N.to_nat index <= distance)%nat ->
    loop throw_exception index = loop' throw_exception index.
Proof.
  induction distance as [| distance IH]; intros index Hd;
    rewrite loop_step, loop'_step;
    destruct (index =? size)%N; try reflexivity;
    destruct (nth_error table (N.to_nat index)) as [x |] eqn:Hx;
    try reflexivity;
    assert (N.to_nat index < length table)%nat
      by (apply nth_error_Some; congruence);
    try lia.
  rewrite <- (tests_agree x) by (eapply nth_error_In; exact Hx).
  destruct (test x); [reflexivity |].
  apply IH. lia.
Qed.

End Linear_scan_tests.

Section Name_lookups.

Variable _value_array : list Z.
Variable _name_array : list (list ascii).
Hypothesis parallel_arrays : length _name_array = length _value_array.

(** What [_from_string] found when it returns. *)
Lemma _from_string_returns_entry (name : list ascii) (e : _Enum) :
  _from_string _value_array _name_array name = Return e ->
  exists found raw,
    nth_error _name_array (N.to_nat found) = Some raw /\
    _namesMatch raw name 0 = true /\
    nth_error _value_array (N.to_nat found) = Some (_value e).
Proof.
  intros He. unfold _from_string in He.
  destruct (existsb (by_name name) _name_array) eqn:Hex.
  - apply existsb_exists in Hex.
    destruct (string_hit _value_array _name_array parallel_arrays name true Hex)
      as (found & Hr & Hlt & [Hm _]).
    rewrite Hr in He. cbn [bind] in He.
    destruct (value_at_found _value_array found Hlt) as (v & Hnth & Hget & _).
    rewrite Hget in He. cbn [bind] in He. injection He as <-.
    apply match_at_true in Hm. destruct Hm as (raw & Hraw & Hm).
    exists found, raw. auto.
  - rewrite string_none in He; [discriminate He | exact parallel_arrays |].
    intros raw Hin. destruct (_namesMatch raw name 0) eqn:Hm; [| reflexivity].
    assert (existsb (by_name name) _name_array = true)
      by (apply existsb_exists; exists raw; auto).
    congruence.
Qed.

Lemma _from_string_nocase_returns_entry (name : list ascii) (e : _Enum) :
  _from_string_nocase _value_array _name_array name = Return e ->
  exists found raw,
    nth_error _name_array (N.to_nat found) = Some raw /\
    _namesMatchNocase raw name 0 = true /\
    nth_error _value_array (N.to_nat found) = Some (_value e).
Proof.
  intros He. unfold _from_string_nocase in He.
  destruct (existsb (by_name_nocase name) _name_array) eqn:Hex.
  - apply existsb_exists in Hex.
    destruct (nocase_hit _value_array _name_array parallel_arrays name true Hex)
      as (found & Hr & Hlt & [Hm _]).
    rewrite Hr in He. cbn [bind] in He.
    destruct (value_at_found _value_array found Hlt) as (v & Hnth & Hget & _).
    rewrite Hget in He. cbn [bind] in He. injection He as <-.
    apply match_at_true in Hm. destruct Hm as (raw & Hraw & Hm).
    exists found, raw. auto.
  - rewrite nocase_none in He; [discriminate He | exact parallel_arrays |].
    intros raw Hin.
    destruct (_namesMatchNocase raw name 0) eqn:Hm; [| reflexivity].
    assert (existsb (by_name_nocase name) _name_array = true)
      by (apply existsb_exists; exists raw; auto).
    congruence.
Qed.

Lemma _from_string_succeeds (name : list ascii) :
  (exists raw, In raw _name_array /\ _namesMatch raw name 0 = true) ->
  exists e, _from_string _value_array _name_array name = Return e.
Proof.
  intros Hsome.
  destruct (string_hit _value_array _name_array parallel_arrays name true
              Hsome) as (found & Hr & Hlt & _).
  unfold _from_string. rewrite Hr. cbn [bind].
  destruct (value_at_found _value_array found Hlt) as (v & _ & Hget & _).
  rewrite Hget. cbn [bind]. eauto.
Qed.

Lemma _from_string_nocase_succeeds (name : list ascii) :
  (exists raw, In raw _name_array /\ _namesMatchNocase raw name 0 = true) ->
  exists e, _from_string_nocase _value_array _name_array name = Return e.
Proof.
  intros Hsome.
  destruct (nocase_hit _value_array _name_array parallel_arrays name true
              Hsome) as (found & Hr & Hlt & _).
  unfold _from_string_nocase. rewrite Hr. cbn [bind].
  destruct (value_at_found _value_array found Hlt) as (v & _ & Hget & _).
  rewrite Hget. cbn [bind]. eauto.
Qed.

(** X4: [_from_string] returns an instance exactly when the query equals,
    character for character, the name part of some declaration; the text
    after the name in the declaration plays no role.  Otherwise it throws
    the invalid-string [runtime_error]. *)
Theorem from_string_succeeds_iff (name : list ascii) :
  ((exists e, _from_string _value_array _name_array name = Return e)
   <->
   (exists raw, In raw _name_array /\ name_part raw = c_str name)) /\
  ((forall raw, In raw _name_array -> name_part raw <> c_str name) ->
   _from_string _value_array _name_array name
   = Throw (runtime_error "Enum::_from_string: invalid string argument")).
Proof.
  split; [split |].
  - intros (e & He).
    destruct (_from_string_returns_entry name e He)
      as (found & raw & Hraw & Hm & _).
    exists raw. split; [eapply nth_error_In; exact Hraw |].
    apply _namesMatch_spec, Hm.
  - intros (raw & Hin & Heq). apply _from_string_succeeds.
    exists raw. split; [exact Hin | apply _namesMatch_spec, Heq].
  - intros Hnone. unfold _from_string.
    rewrite string_none; [reflexivity | exact parallel_arrays |].
    intros raw Hin. destruct (_namesMatch raw name 0) eqn:Hm; [| reflexivity].
    apply _namesMatch_spec in Hm. elim (Hnone raw Hin Hm).
Qed.

(** X5: the query and the conversion agree for names: [_is_valid(name)] is
    true exactly when [_from_string(name)] returns an instance and false
    exactly when it throws, and likewise for the case-insensitive pair. *)
Theorem name_queries_agree_with_conversions (name : list ascii) :
  (_size _value_array <= _ENUM_NOT_FOUND)%N ->
  ((_is_valid_name _value_array _name_array name = Return true /\
    exists e, _from_string _value_array _name_array name = Return e)
   \/
   (_is_valid_name _value_array _name_array name = Return false /\
    _from_string _value_array _name_array name
    = Throw (runtime_error "Enum::_from_string: invalid string argument")))
  /\
  ((_is_valid_nocase _value_array _name_array name = Return true /\
    exists e, _from_string_nocase _value_array _name_array name = Return e)
   \/
   (_is_valid_nocase _value_array _name_array name = Return false /\
    _from_string_nocase _value_array _name_array name
    = Throw (runtime_error
               "Enum::_from_string_nocase: invalid string argument"))).
Proof.
  intros Hfits. split.
  - destruct (existsb (by_name name) _name_array) eqn:Hex.
    + left. apply existsb_exists in Hex. split.
      * destruct (string_hit _value_array _name_array parallel_arrays name
                    false Hex) as (found & Hr & Hlt & _).
        unfold _is_valid_name. rewrite Hr. cbn [bind]. f_equal.
        apply negb_true_iff, N.eqb_neq. lia.
      * apply _from_string_succeeds, Hex.
    + right.
      assert (Hnone : forall raw, In raw _name_array ->
                                  _namesMatch raw name 0 = false).
      { intros raw Hin.
        destruct (_namesMatch raw name 0) eqn:Hm; [| reflexivity].
        assert (existsb (by_name name) _name_array = true)
          by (apply existsb_exists; exists raw; auto).
        congruence. }
      unfold _is_valid_name, _from_string.
      rewrite !string_none by assumption. split; reflexivity.
  - destruct (existsb (by_name_nocase name) _name_array) eqn:Hex.
    + left. apply existsb_exists in Hex. split.
      * destruct (nocase_hit _value_array _name_array parallel_arrays name
                    false Hex) as (found & Hr & Hlt & _).
        unfold _is_valid_nocase. rewrite Hr. cbn [bind]. f_equal.
        apply negb_true_iff, N.eqb_neq. lia.
      * apply _from_string_nocase_succeeds, Hex.
    + right.
      assert (Hnone : forall raw, In raw _name_array ->
                                  _namesMatchNocase raw name 0 = false).
      { intros raw Hin.
        destruct (_namesMatchNocase raw name 0) eqn:Hm; [| reflexivity].
        assert (existsb (by_name_nocase name) _name_array = true)
          by (apply existsb_exists; exists raw; auto).
        congruence. }
      unfold _is_valid_nocase, _from_string_nocase.
      rewrite !nocase_none by assumption. split; reflexivity.
Qed.

(** X6: a name the case-sensitive lookup accepts is accepted by the
    case-insensitive lookup. *)
Theorem exact_match_implies_nocase_match (name : list ascii) :
  (forall raw, _namesMatch raw name 0 = true ->
               _namesMatchNocase raw name 0 = true) /\
  ((exists e, _from_string _value_array _name_array name = Return e) ->
   exists e, _from_string_nocase _value_array _name_array name = Return e).
Proof.
  assert (Hmatch : forall raw, _namesMatch raw name 0 = true ->
                               _namesMatchNocase raw name 0 = true).
  { intros raw Hm. apply _namesMatch_spec in Hm.
    apply _namesMatchNocase_spec. rewrite Hm. reflexivity. }
  split; [exact Hmatch |].
  intros (e & He).
  destruct (_from_string_returns_entry name e He)
    as (found & raw & Hraw & Hm & _).
  apply _from_string_nocase_succeeds. exists raw.
  split; [eapply nth_error_In; exact Hraw | apply Hmatch, Hm].
Qed.

End Name_lookups.

Lemma nocase_tests_agree (name name' raw : list ascii) :
  equal_ignoring_case (c_str name) (c_str name') ->
  by_name_nocase name raw = by_name_nocase name' raw.
Proof.
  intros Hsame. apply fold_case_equal_ignoring_case in Hsame.
  unfold by_name_nocase.
  destruct (_namesMatchNocase raw name 0) eqn:Hm,
           (_namesMatchNocase raw name' 0) eqn:Hm'; try reflexivity.
  - apply _namesMatchNocase_spec in Hm. rewrite Hsame in Hm.
    apply _namesMatchNocase_spec in Hm. congruence.
  - apply _namesMatchNocase_spec in Hm'. rewrite <- Hsame in Hm'.
    apply _namesMatchNocase_spec in Hm'. congruence.
Qed.

(** X7: the case-insensitive lookup does not depend on the case of the
    letters of the query: two queries that are equal up to ASCII letter case
    give the same conversion result (the same instance or the same
    exception) and the same query answer. *)
Theorem nocase_lookup_ignores_query_case (_value_array : list Z)
  (_name_array : list (list ascii)) (name name' : list ascii) :
  equal_ignoring_case (c_str name) (c_str name') ->
  _from_string_nocase _value_array _name_array name
  = _from_string_nocase _value_array _name_array name' /\
  _is_valid_nocase _value_array _name_array name
  = _is_valid_nocase _value_array _name_array name'.
Proof.
  intros Hsame.
  assert (Hloop : forall throw_exception,
    _from_string_nocase_loop _value_array _name_array name throw_exception 0
    = _from_string_nocase_loop _value_array _name_array name'
        throw_exception 0).
  { intros throw_exception.
    apply (scans_agree (list ascii) _name_array (_size _value_array)
             (by_name_nocase name) (by_name_nocase name') nocase_miss
             (_from_string_nocase_loop _value_array _name_array name)
             (_from_string_nocase_loop _value_array _name_array name'))
      with (distance := length _name_array).
    - intros raw _. apply nocase_tests_agree, Hsame.
    - intros t i. apply _from_string_nocase_loop_step.
    - intros t i. apply _from_string_nocase_loop_step.
    - lia. }
  unfold _from_string_nocase, _is_valid_nocase. rewrite !Hloop.
  split; reflexivity.
Qed.

Lemma nocase_lookup_ignores_query_case_witness :
  equal_ignoring_case (c_str (chars "Green")) (c_str (chars "gREEN")) /\
  _from_string_nocase Channel._value_array Channel._name_array (chars "Green")
  = _from_string_nocase Channel._value_array Channel._name_array
      (chars "gREEN") /\
  _is_valid_nocase Channel._value_array Channel._name_array (chars "Green")
  = _is_valid_nocase Channel._value_array Channel._name_array (chars "gREEN").
Proof.
  assert (Hsame : equal_ignoring_case (c_str (chars "Green"))
                    (c_str (chars "gREEN")))
    by (apply fold_case_equal_ignoring_case; reflexivity).
  split; [exact Hsame |].
  exact (nocase_lookup_ignores_query_case Channel._value_array
           Channel._name_array (chars "Green") (chars "gREEN") Hsame).
Defined.

Section Name_round_trip.

Variable _value_array : list Z.
Variable _name_array : list (list ascii).
Hypothesis parallel_arrays : length _name_array = length _value_array.

(** With pairwise distinct values, [to_string] names the declaration an
    instance was read from. *)
Lemma to_string_of_entry (e : _Enum) (found : N) (raw : list ascii)
  (st : statics) :
  NoDup _value_array ->
  statics_ok _value_array _name_array st ->
  nth_error _name_array (N.to_nat found) = Some raw ->
  nth_error _value_array (N.to_nat found) = Some (_value e) ->
  string_result (to_string _value_array _name_array e st)
  = Return (name_part raw).
Proof.
  intros Hdistinct Hst Hraw Hvalue.
  assert (Hin : In (_value e) _value_array)
    by (eapply nth_error_In; exact Hvalue).
  destruct (to_string_found _value_array _name_array parallel_arrays e st
              Hst Hin) as (found' & raw' & p & [Hm _] & Hraw' & Hto & Hread).
  apply match_at_true in Hm. destruct Hm as (v & Hv & Hveq).
  unfold by_value in Hveq. apply Z.eqb_eq in Hveq. subst v.
  assert (Hsame : N.to_nat found' = N.to_nat found).
  { apply (proj1 (NoDup_nth_error _value_array) Hdistinct).
    - apply nth_error_Some. congruence.
    - congruence. }
  rewrite Hsame in Hraw'. assert (raw' = raw) as -> by congruence.
  rewrite Hto. exact Hread.
Qed.

(** X8: when the declared values are pairwise distinct, a name converted by
    [_from_string] comes back from [to_string] unchanged, and a name
    converted by [_from_string_nocase] comes back equal up to the case of
    its letters (as the identifier is declared). *)
Theorem name_round_trip (name : list ascii) (e : _Enum) (st : statics) :
  NoDup _value_array ->
  statics_ok _value_array _name_array st ->
  (_from_string _value_array _name_array name = Return e ->
   string_result (to_string _value_array _name_array e st)
   = Return (c_str name)) /\
  (_from_string_nocase _value_array _name_array name = Return e ->
   exists declared,
     string_result (to_string _value_array _name_array e st)
     = Return declared /\
     equal_ignoring_case declared (c_str name)).
Proof.
  intros Hdistinct Hst. split.
  - intros He.
    destruct (_from_string_returns_entry _value_array _name_array
                parallel_arrays name e He)
      as (found & raw & Hraw & Hm & Hvalue).
    apply _namesMatch_spec in Hm. rewrite <- Hm.
    exact (to_string_of_entry e found raw st Hdistinct Hst Hraw Hvalue).
  - intros He.
    destruct (_from_string_nocase_returns_entry _value_array _name_array
                parallel_arrays name e He)
      as (found & raw & Hraw & Hm & Hvalue).
    exists (name_part raw). split.
    + exact (to_string_of_entry e found raw st Hdistinct Hst Hraw Hvalue).
    + apply fold_case_equal_ignoring_case, _namesMatchNocase_spec, Hm.
Qed.

End Name_round_trip.

(** ** Range metadata *)

Lemma _span_value (t : IntegralType) (values : list Z) (mn mx : Z) :
  _min values = Return mn ->
  _max values = Return mx ->
  (mn <= mx)%Z ->
  (bits t <= 64)%Z ->
  (mx - mn + 1 <= max_value (promoted t))%Z ->
  _span t values = Return (Z.to_N (mx - mn + 1)).
Proof.
  intros Hmin Hmax Hle Hwidth Hfits.
  pose proof (max_value_promoted_fits t Hwidth) as Hsize.
  pose proof (min_value_promoted_nonpos t) as Hneg.
  unfold _span. rewrite Hmax, Hmin. cbn [bind].
  rewrite arithmetic_exact by lia. cbn [bind].
  rewrite arithmetic_exact by lia. cbn [bind].
  unfold to_size_t. rewrite Z.mod_small by lia. reflexivity.
Qed.

Lemma _is_valid_true_member (values : list Z) (v : Z) :
  _is_valid values v = Return true -> In v values.
Proof.
  intros Hvalid.
  destruct (in_dec Z.eq_dec v values) as [Hin | Hnot]; [exact Hin |].
  unfold _is_valid in Hvalid. rewrite (int_none values v false Hnot) in Hvalid.
  discriminate Hvalid.
Qed.

(** X9: for a non-empty value table, [_first] and [_last] are its first and
    last entries, [_min] and [_max] are entries of the table, [_min] is the
    least and [_max] the greatest of them, and every integer that
    [_is_valid] accepts lies between them.  For an empty table all four read
    outside the array. *)
Theorem range_metadata (values : list Z) :
  (values = [] ->
   _first values = Undefined /\ _last values = Undefined /\
   _min values = Undefined /\ _max values = Undefined) /\
  (values <> [] ->
   (_size values < 2 ^ 64)%N ->
   exists first last mn mx,
     _first values = Return first /\ _last values = Return last /\
     _min values = Return mn /\ _max values = Return mx /\
     hd_error values = Some first /\
     nth_error values (length values - 1) = Some last /\
     In mn values /\ In mx values /\
     (forall v, In v values -> (mn <= v <= mx)%Z) /\
     (forall v, _is_valid values v = Return true -> (mn <= v <= mx)%Z)).
Proof.
  split.
  - intros ->. repeat split.
  - intros Hnonempty Hfits.
    destruct (_min_spec values Hnonempty) as (mn & Hmin & Hmn_in & Hmn).
    destruct (_max_spec values Hnonempty) as (mx & Hmax & Hmx_in & Hmx).
    assert (Hlen : (0 < length values)%nat)
      by (destruct values; [contradiction | cbn; lia]).
    destruct (nth_error values 0) as [first |] eqn:Hfirst;
      [| apply nth_error_None in Hfirst; lia].
    destruct (nth_error values (length values - 1)) as [last |] eqn:Hlast;
      [| apply nth_error_None in Hlast; lia].
    exists first, last, mn, mx.
    assert (Hbounds : forall v, In v values -> (mn <= v <= mx)%Z)
      by (intros v Hv; split; [apply Hmn, Hv | apply Hmx, Hv]).
    split; [unfold _first, array_get; cbn [N.to_nat]; rewrite Hfirst;
            reflexivity |].
    split.
    { unfold _last, array_get, to_size_t, _size in *.
      rewrite Z.mod_small by lia.
      replace (N.to_nat (Z.to_N (Z.of_N (N.of_nat (length values)) - 1)))
        with (length values - 1)%nat by lia.
      rewrite Hlast. reflexivity. }
    split; [exact Hmin |]. split; [exact Hmax |].
    split; [destruct values; [contradiction | exact Hfirst] |].
    split; [reflexivity |].
    split; [exact Hmn_in |]. split; [exact Hmx_in |].
    split; [exact Hbounds |].
    intros v Hvalid. apply Hbounds, _is_valid_true_member, Hvalid.
Qed.

Lemma range_metadata_witness :
  Mixed._value_array <> [] /\
  (_size Mixed._value_array < 2 ^ 64)%N /\
  exists first last mn mx,
    _first Mixed._value_array = Return first /\
    _last Mixed._value_array = Return last /\
    _min Mixed._value_array = Return mn /\
    _max Mixed._value_array = Return mx /\
    hd_error Mixed._value_array = Some first /\
    nth_error Mixed._value_array (length Mixed._value_array - 1) = Some last /\
    In mn Mixed._value_array /\ In mx Mixed._value_array /\
    (forall v, In v Mixed._value_array -> (mn <= v <= mx)%Z) /\
    (forall v, _is_valid Mixed._value_array v = Return true ->
               (mn <= v <= mx)%Z).
Proof.
  assert (Hne : Mixed._value_array <> []) by discriminate.
  assert (Hfits : (_size Mixed._value_array < 2 ^ 64)%N)
    by (vm_compute; reflexivity).
  split; [exact Hne |]. split; [exact Hfits |].
  exact (proj2 (range_metadata Mixed._value_array) Hne Hfits).
Defined.

Lemma interval_in_distinct (values : list Z) (lo hi : Z) :
  NoDup values ->
  (forall v, In v values -> (lo <= v <= hi)%Z) ->
  (Z.of_nat (length values) = hi - lo + 1)%Z ->
  forall z, (lo <= z <= hi)%Z -> In z values.
Proof.
  intros Hnodup Hrange Hlen z Hz.
  set (offset := fun v => Z.to_nat (v - lo)).
  assert (Hmap : NoDup (map offset values)).
  { apply NoDup_map_NoDup_ForallPairs; [| exact Hnodup].
    intros x y Hx Hy Heq. unfold offset in Heq.
    apply Hrange in Hx. apply Hrange in Hy. lia. }
  assert (Hincl : incl (map offset values) (seq 0 (Z.to_nat (hi - lo + 1)))).
  { intros n Hn. apply in_map_iff in Hn. destruct Hn as (v & <- & Hv).
    apply Hrange in Hv. apply in_seq. unfold offset. lia. }
  assert (Hback : incl (seq 0 (Z.to_nat (hi - lo + 1))) (map offset values)).
  { apply NoDup_length_incl; [exact Hmap | | exact Hincl].
    rewrite length_map, length_seq. lia. }
  assert (Hz' : In (offset z) (map offset values))
    by (apply Hback, in_seq; unfold offset; lia).
  apply in_map_iff in Hz'. destruct Hz' as (v & Hv & Hin).
  pose proof (Hrange v Hin). unfold offset in Hv.
  assert (v = z) by lia. subst v. exact Hin.
Qed.

Lemma interval_length_le (values : list Z) (lo hi : Z) :
  (lo <= hi)%Z ->
  (forall z, (lo <= z <= hi)%Z -> In z values) ->
  (hi - lo + 1 <= Z.of_nat (length values))%Z.
Proof.
  intros Hlohi Hall.
  set (interval := map (fun k => (lo + Z.of_nat k)%Z)
                     (seq 0 (Z.to_nat (hi - lo + 1)))).
  assert (Hnodup : NoDup interval).
  { apply NoDup_map_NoDup_ForallPairs; [| apply seq_NoDup].
    intros x y _ _ Heq. lia. }
  assert (Hincl : incl interval values).
  { intros z Hz. apply in_map_iff in Hz. destruct Hz as (k & <- & Hk).
    apply in_seq in Hk. apply Hall. lia. }
  pose proof (NoDup_incl_length Hnodup Hincl) as Hlen.
  unfold interval in Hlen. rewrite length_map, length_seq in Hlen. lia.
Qed.

(** X10: for pairwise distinct declared values whose [max - min + 1] is
    representable, [_span] equals [_size] exactly when the values leave no
    gap, that is when every integer from [_min] to [_max] is declared. *)
Theorem span_equals_size_iff_contiguous (_Integral : IntegralType)
  (_value_array : list Z) :
  _value_array <> [] ->
  (bits _Integral <= 64)%Z ->
  NoDup _value_array ->
  exists mn mx,
    _min _value_array = Return mn /\ _max _value_array = Return mx /\
    ((mx - mn + 1 <= max_value (promoted _Integral))%Z ->
     exists span,
       _span _Integral _value_array = Return span /\
       (span = _size _value_array <->
        forall z, (mn <= z <= mx)%Z -> In z _value_array)).
Proof.
  intros Hnonempty Hwidth Hnodup.
  destruct (_min_spec _value_array Hnonempty) as (mn & Hmin & Hmn_in & Hmn).
  destruct (_max_spec _value_array Hnonempty) as (mx & Hmax & Hmx_in & Hmx).
  exists mn, mx. split; [exact Hmin |]. split; [exact Hmax |].
  intros Hfits.
  assert (Hle : (mn <= mx)%Z) by (apply Hmn, Hmx_in).
  assert (Hrange : forall v, In v _value_array -> (mn <= v <= mx)%Z)
    by (intros v Hv; split; [apply Hmn, Hv | apply Hmx, Hv]).
  exists (Z.to_N (mx - mn + 1)).
  split; [exact (_span_value _Integral _value_array mn mx Hmin Hmax Hle
                   Hwidth Hfits) |].
  unfold _size. split.
  - intros Heq. apply interval_in_distinct; [exact Hnodup | exact Hrange |].
    lia.
  - intros Hall.
    pose proof (distinct_in_interval _value_array mn mx Hle Hnodup Hrange).
    pose proof (interval_length_le _value_array mn mx Hle Hall).
    lia.
Qed.

Lemma span_equals_size_iff_contiguous_witness :
  Mixed._value_array <> [] /\
  (bits Mixed._Integral <= 64)%Z /\
  NoDup Mixed._value_array /\
  exists mn mx,
    _min Mixed._value_array = Return mn /\
    _max Mixed._value_array = Return mx /\
    ((mx - mn + 1 <= max_value (promoted Mixed._Integral))%Z ->
     exists span,
       _span Mixed._Integral Mixed._value_array = Return span /\
       (span = _size Mixed._value_array <->
        forall z, (mn <= z <= mx)%Z -> In z Mixed._value_array)).
Proof.
  assert (Hne : Mixed._value_array <> []) by discriminate.
  assert (Hw : (bits Mixed._Integral <= 64)%Z) by (cbn; lia).
  assert (Hnodup : NoDup Mixed._value_array).
  { repeat constructor; cbn; intuition discriminate. }
  split; [exact Hne |]. split; [exact Hw |]. split; [exact Hnodup |].
  exact (span_equals_size_iff_contiguous Mixed._Integral Mixed._value_array
           Hne Hw Hnodup).
Defined.

(** ** Layout of the processed names *)

Lemma name_offsets_step (rest : list (list ascii)) :
  forall start i raw next,
    nth_error rest i = Some raw ->
    nth_error rest (S i) = Some next ->
    exists p,
      nth_error (name_offsets rest start) i = Some p /\
      nth_error (name_offsets rest start) (S i)
      = Some (p + N.of_nat (length (name_part raw)) + 1)%N.
Proof.
  induction rest as [| first rest IH]; intros start i raw next Hraw Hnext;
    [destruct i; discriminate Hraw |].
  destruct i as [| i].
  - injection Hraw as ->. exists start. split; [reflexivity |].
    destruct rest as [| second rest]; [discriminate Hnext |]. reflexivity.
  - cbn [nth_error] in Hraw, Hnext. cbn [name_offsets nth_error].
    apply (IH _ i raw next Hraw Hnext).
Qed.

Lemma name_offsets_length (rest : list (list ascii)) (start : N) :
  length (name_offsets rest start) = length rest.
Proof.
  revert start. induction rest as [| raw rest IH]; intros start;
    [reflexivity |].
  cbn [name_offsets length]. rewrite IH. reflexivity.
Qed.

Lemma name_length_gap (raw : list ascii) :
  N.of_nat (length (name_part raw)) = strlen raw <->
  name_part raw = c_str raw.
Proof.
  induction raw as [| c raw IH]; [split; reflexivity |].
  rewrite name_part_cons. unfold c_str. cbn [strlen take_until].
  fold (c_str raw).
  destruct (Ascii.eqb_spec c NUL) as [-> | Hnul].
  - rewrite endsName_NUL. split; reflexivity.
  - destruct (_endsName c 0).
    + cbn [length]. split; [lia | discriminate].
    + cbn [length]. rewrite Nat2N.inj_succ. split.
      * intros H. f_equal. apply IH. lia.
      * intros H. injection H as H. apply IH in H. lia.
Qed.

Lemma bytes_needed_cons (raw : list ascii) (rest : list (list ascii)) :
  bytes_needed (raw :: rest) = (strlen raw + 1 + bytes_needed rest)%N.
Proof. reflexivity. Qed.

Lemma no_slack_pointwise (rawNames : list (list ascii)) :
  N.of_nat (length (packed_names rawNames)) = bytes_needed rawNames ->
  forall raw, In raw rawNames ->
              N.of_nat (length (name_part raw)) = strlen raw.
Proof.
  induction rawNames as [| first rest IH]; intros Hfull raw Hin;
    [contradiction |].
  rewrite packed_names_cons, length_app, bytes_needed_cons in Hfull.
  cbn [length] in Hfull.
  pose proof (name_part_le_strlen first) as Hfirst.
  pose proof (packed_names_fit rest) as Hrest.
  destruct Hin as [<- | Hin]; [lia | apply IH; [lia | exact Hin]].
Qed.

Lemma no_slack_iff (rawNames : list (list ascii)) :
  (forall raw, In raw rawNames ->
               N.of_nat (length (name_part raw)) = strlen raw) ->
  N.of_nat (length (packed_names rawNames)) = bytes_needed rawNames.
Proof.
  induction rawNames as [| first rest IH]; intros Hall; [reflexivity |].
  rewrite packed_names_cons, length_app, bytes_needed_cons.
  cbn [length].
  pose proof (Hall first (or_introl eq_refl)) as Hfirst.
  pose proof (IH (fun raw Hin => Hall raw (or_intror Hin))) as Hrest.
  lia.
Qed.

(** X11: the table [_processNames] returns has one pointer per raw name;
    the first name starts at the beginning of the storage and each further
    name starts right behind the terminator of the one before.  No cell of
    the storage stays unwritten exactly when no raw name carries text after
    its name part. *)
Theorem processed_names_are_packed (rawNames : list (list ascii)) :
  exists table,
    _enum._processNames rawNames (N.of_nat (length rawNames)) = Return table /\
    length (processedNames table) = length rawNames /\
    (rawNames <> [] -> array_read (processedNames table) 0 = Return 0%N) /\
    (forall i raw next,
        nth_error rawNames i = Some raw ->
        nth_error rawNames (S i) = Some next ->
        exists p,
          array_read (processedNames table) (N.of_nat i) = Return p /\
          array_read (processedNames table) (N.of_nat (S i))
          = Return (p + N.of_nat (length (name_part raw)) + 1)%N /\
          array_read (nameStorage table)
            (p + N.of_nat (length (name_part raw)))
          = Return NUL) /\
    (Forall (fun cell => cell <> None) (nameStorage table) <->
     forall raw, In raw rawNames -> name_part raw = c_str raw).
Proof.
  exists (processed_table rawNames).
  split; [apply _processNames_spec |].
  cbn [processedNames nameStorage processed_table].
  split; [rewrite length_map; apply name_offsets_length |].
  split; [| split].
  - intros Hne. destruct rawNames; [contradiction | reflexivity].
  - intros i raw next Hraw Hnext.
    destruct (name_offsets_step rawNames 0%N i raw next Hraw Hnext)
      as (p & Hp & Hp').
    exists p. unfold array_read. rewrite !Nat2N.id, !nth_error_map, Hp, Hp'.
    split; [reflexivity |]. split; [reflexivity |].
    destruct (read_processed
                (repeat None (N.to_nat (bytes_needed rawNames)
                              - length (packed_names rawNames)))
                rawNames [] i raw Hraw) as (q & Hq & Hread).
    cbn [length N.of_nat app] in Hq, Hread.
    assert (q = p) as -> by congruence.
    clear - Hread. unfold string_at in Hread.
    rewrite N2Nat.inj_add, Nat2N.id.
    revert Hread. generalize (N.to_nat p). intros n.
    generalize (map Some (packed_names rawNames)
                ++ repeat None (N.to_nat (bytes_needed rawNames)
                                - length (packed_names rawNames))).
    intros cells. rewrite <- (nth_error_skipn n).
    generalize (skipn n cells). clear. intros cells.
    generalize (name_part raw) as name.
    intros name. revert cells. induction name as [| c name IH]; intros cells H.
    + destruct cells as [| [d |] cells]; try discriminate H.
      cbn [string_of] in H. cbn [length nth_error].
      destruct (Ascii.eqb_spec d NUL) as [-> | _]; [reflexivity |].
      destruct (string_of cells); discriminate H.
    + destruct cells as [| [d |] cells]; try discriminate H.
      cbn [string_of] in H. cbn [length nth_error].
      destruct (Ascii.eqb d NUL); [discriminate H |].
      destruct (string_of cells) as [s | |] eqn:Hs; try discriminate H.
      cbn [bind] in H. injection H as -> ->. apply IH.
      rewrite Hs. reflexivity.
  - pose proof (packed_names_fit rawNames) as Hfit.
    rewrite Forall_app. split.
    + intros [_ Hslack] raw Hin.
      assert (Hfull : N.of_nat (length (packed_names rawNames))
                      = bytes_needed rawNames).
      { destruct (N.to_nat (bytes_needed rawNames)
                  - length (packed_names rawNames))%nat eqn:Hgap; [lia |].
        cbn [repeat] in Hslack. inversion Hslack as [| ? ? Hhead]; subst.
        elim Hhead. reflexivity. }
      apply name_length_gap. exact (no_slack_pointwise rawNames Hfull raw Hin).
    + intros Hall. split.
      * apply Forall_forall. intros cell Hcell.
        apply in_map_iff in Hcell. destruct Hcell as (c & <- & _).
        discriminate.
      * assert (Hfull : N.of_nat (length (packed_names rawNames))
                        = bytes_needed rawNames).
        { apply no_slack_iff. intros raw Hin.
          apply name_length_gap, Hall, Hin. }
        replace (N.to_nat (bytes_needed rawNames)
                 - length (packed_names rawNames))%nat with 0%nat by lia.
        constructor.
Qed.

(** ** Case folding and comparisons *)

(** X12: [_toLowercaseAscii] is idempotent, never returns an upper-case
    letter, changes nothing but the upper-case letters, and does not change
    whether a character ends a name (so [_namesMatchNocase] may test for the
    end of the name before folding). *)
Theorem toLowercaseAscii_folds_once (c : ascii) :
  _toLowercaseAscii (_toLowercaseAscii c) = _toLowercaseAscii c /\
  is_upper (_toLowercaseAscii c) = false /\
  (is_upper c = false -> _toLowercaseAscii c = c) /\
  (is_upper c = true ->
   N_of_ascii (_toLowercaseAscii c) = (N_of_ascii c + 32)%N) /\
  _endsName (_toLowercaseAscii c) 0 = _endsName c 0.
Proof.
  destruct c as [[] [] [] [] [] [] [] []];
    (split; [reflexivity |]); (split; [reflexivity |]);
    (split; [intros H; (reflexivity || discriminate H) |]);
    (split; [intros H; (reflexivity || discriminate H) | reflexivity]).
Qed.

(** X13: the comparison operators order the instances by the held value:
    [==] holds exactly for identical instances, [!=] is its negation, of
    [<], [==], [>] exactly one holds, [<=] and [>=] are [<] or [==] and [>]
    or [==], [>] is [<] with the operands exchanged, and [<] is
    transitive. *)
Theorem comparison_operators_order (a b c : _Enum) :
  (eq_op a b = true <-> a = b) /\
  ne_op a b = negb (eq_op a b) /\
  ((lt_op a b = true /\ eq_op a b = false /\ gt_op a b = false) \/
   (lt_op a b = false /\ eq_op a b = true /\ gt_op a b = false) \/
   (lt_op a b = false /\ eq_op a b = false /\ gt_op a b = true)) /\
  le_op a b = (lt_op a b || eq_op a b) /\
  ge_op a b = (gt_op a b || eq_op a b) /\
  gt_op a b = lt_op b a /\
  (lt_op a b = true <-> (to_int a < to_int b)%Z) /\
  (lt_op a b = true -> lt_op b c = true -> lt_op a c = true).
Proof.
  destruct a as [x], b as [y], c as [z].
  unfold eq_op, ne_op, lt_op, le_op, gt_op, ge_op, to_int. cbn [_value].
  rewrite Z.gtb_ltb, Z.geb_leb.
  split.
  { split; [intros H; apply Z.eqb_eq in H; subst; reflexivity |].
    intros H. injection H as ->. apply Z.eqb_refl. }
  split; [reflexivity |].
  split.
  { destruct (Z.lt_trichotomy x y) as [H | [H | H]];
      [left | right; left | right; right];
      repeat split;
      first [apply Z.ltb_lt | apply Z.ltb_ge | apply Z.eqb_eq
            | apply Z.eqb_neq];
      lia. }
  split.
  { destruct (Z.leb_spec x y), (Z.ltb_spec x y), (Z.eqb_spec x y);
      cbn; (reflexivity || lia). }
  split.
  { destruct (Z.leb_spec y x), (Z.ltb_spec y x), (Z.eqb_spec x y);
      cbn; (reflexivity || lia). }
  split; [reflexivity |].
  split; [apply Z.ltb_lt |].
  intros Hab Hbc. apply Z.ltb_lt in Hab. apply Z.ltb_lt in Hbc.
  apply Z.ltb_lt. lia.
Qed.

(** ** The example types again *)

Lemma from_string_succeeds_iff_witness :
  length Mixed._name_array = length Mixed._value_array /\
  ((exists e,
       _from_string Mixed._value_array Mixed._name_array (chars "C")
       = Return e)
   <->
   (exists raw, In raw Mixed._name_array /\
                name_part raw = c_str (chars "C"))).
Proof.
  assert (Hpar : length Mixed._name_array = length Mixed._value_array)
    by reflexivity.
  split; [exact Hpar |].
  exact (proj1 (from_string_succeeds_iff Mixed._value_array Mixed._name_array
                  Hpar (chars "C"))).
Defined.

Lemma name_queries_agree_with_conversions_witness :
  length Channel._name_array = length Channel._value_array /\
  (_size Channel._value_array <= _ENUM_NOT_FOUND)%N /\
  ((_is_valid_name Channel._value_array Channel._name_array (chars "BLUE")
    = Return true /\
    exists e,
      _from_string Channel._value_array Channel._name_array (chars "BLUE")
      = Return e)
   \/
   (_is_valid_name Channel._value_array Channel._name_array (chars "BLUE")
    = Return false /\
    _from_string Channel._value_array Channel._name_array (chars "BLUE")
    = Throw (runtime_error "Enum::_from_string: invalid string argument"))).
Proof.
  assert (Hpar : length Channel._name_array = length Channel._value_array)
    by reflexivity.
  assert (Hfits : (_size Channel._value_array <= _ENUM_NOT_FOUND)%N)
    by (vm_compute; discriminate).
  split; [exact Hpar |]. split; [exact Hfits |].
  exact (proj1 (name_queries_agree_with_conversions Channel._value_array
                  Channel._name_array Hpar (chars "BLUE") Hfits)).
Defined.

Lemma exact_match_implies_nocase_match_witness :
  length Channel._name_array = length Channel._value_array /\
  ((exists e,
       _from_string Channel._value_array Channel._name_array (chars "RED")
       = Return e) ->
   exists e,
     _from_string_nocase Channel._value_array Channel._name_array
       (chars "RED") = Return e).
Proof.
  assert (Hpar : length Channel._name_array = length Channel._value_array)
    by reflexivity.
  split; [exact Hpar |].
  exact (proj2 (exact_match_implies_nocase_match Channel._value_array
                  Channel._name_array Hpar (chars "RED"))).
Defined.

Lemma name_round_trip_witness :
  length Mixed._name_array = length Mixed._value_array /\
  NoDup Mixed._value_array /\
  statics_ok Mixed._value_array Mixed._name_array None /\
  (_from_string Mixed._value_array Mixed._name_array (chars "B")
   = Return {| _value := 11 |} ->
   string_result
     (to_string Mixed._value_array Mixed._name_array {| _value := 11 |} None)
   = Return (c_str (chars "B"))) /\
  (_from_string_nocase Mixed._value_array Mixed._name_array (chars "B")
   = Return {| _value := 11 |} ->
   exists declared,
     string_result
       (to_string Mixed._value_array Mixed._name_array {| _value := 11 |}
          None)
     = Return declared /\
     equal_ignoring_case declared (c_str (chars "B"))).
Proof.
  assert (Hpar : length Mixed._name_array = length Mixed._value_array)
    by reflexivity.
  assert (Hnodup : NoDup Mixed._value_array).
  { repeat constructor; cbn; intuition discriminate. }
  assert (Hst : statics_ok Mixed._value_array Mixed._name_array None)
    by (left; reflexivity).
  split; [exact Hpar |]. split; [exact Hnodup |]. split; [exact Hst |].
  exact (name_round_trip Mixed._value_array Mixed._name_array Hpar
           (chars "B") {| _value := 11 |} None Hnodup Hst).
Defined.

(** With an alias the name does not come back: in [{X, Y = X}] the name [Y]
    converts to the instance holding 0, which [to_string] calls [X]; and a
    case-insensitive hit can differ from the case-sensitive one. *)
Example alias_name_round_trip :
  _from_string Alias._value_array Alias._name_array (chars "Y")
  = Return {| _value := 0 |} /\
  string_result
    (to_string Alias._value_array Alias._name_array {| _value := 0 |} None)
  = Return (chars "X") /\
  _from_string [1; 2]%Z [chars "ab"; chars "AB"] (chars "AB")
  = Return {| _value := 2 |} /\
  _from_string_nocase [1; 2]%Z [chars "ab"; chars "AB"] (chars "AB")
  = Return {| _value := 1 |}.
Proof. repeat split. Qed.

(** X14: when [max - min + 1] is representable, every integer [_is_valid]
    accepts lies at an offset from [_min] that is below [_span], so a table
    of [_span] slots indexed by [value - _min] has a slot for every valid
    value. *)
Theorem valid_offsets_below_span (_Integral : IntegralType)
  (_value_array : list Z) :
  _value_array <> [] ->
  (bits _Integral <= 64)%Z ->
  exists mn mx,
    _min _value_array = Return mn /\ _max _value_array = Return mx /\
    ((mx - mn + 1 <= max_value (promoted _Integral))%Z ->
     exists span,
       _span _Integral _value_array = Return span /\
       (0 < span)%N /\
       forall v, _is_valid _value_array v = Return true ->
                 (0 <= v - mn < Z.of_N span)%Z).
Proof.
  intros Hnonempty Hwidth.
  destruct (_min_spec _value_array Hnonempty) as (mn & Hmin & Hmn_in & Hmn).
  destruct (_max_spec _value_array Hnonempty) as (mx & Hmax & Hmx_in & Hmx).
  exists mn, mx. split; [exact Hmin |]. split; [exact Hmax |].
  intros Hfits.
  assert (Hle : (mn <= mx)%Z) by (apply Hmn, Hmx_in).
  exists (Z.to_N (mx - mn + 1)).
  split; [exact (_span_value _Integral _value_array mn mx Hmin Hmax Hle
                   Hwidth Hfits) |].
  split; [lia |].
  intros v Hvalid. apply _is_valid_true_member in Hvalid.
  pose proof (Hmn v Hvalid). pose proof (Hmx v Hvalid). lia.
Qed.

Lemma valid_offsets_below_span_witness :
  Mixed._value_array <> [] /\
  (bits Mixed._Integral <= 64)%Z /\
  exists mn mx,
    _min Mixed._value_array = Return mn /\
    _max Mixed._value_array = Return mx /\
    ((mx - mn + 1 <= max_value (promoted Mixed._Integral))%Z ->
     exists span,
       _span Mixed._Integral Mixed._value_array = Return span /\
       (0 < span)%N /\
       forall v, _is_valid Mixed._value_array v = Return true ->
                 (0 <= v - mn < Z.of_N span)%Z).
Proof.
  assert (Hne : Mixed._value_array <> []) by discriminate.
  assert (Hw : (bits Mixed._Integral <= 64)%Z) by (cbn; lia).
  split; [exact Hne |]. split; [exact Hw |].
  exact (valid_offsets_below_span Mixed._Integral Mixed._value_array Hne Hw).
Defined.

(** X15: an instance obtained from a validated conversion converts to its
    integer and back to itself; and whenever [_from_int] returns, it returns
    the instance [_from_int_unchecked] builds for the same integer. *)
Theorem integer_round_trip (_value_array : list Z)
  (_name_array : list (list ascii)) (e : _Enum) :
  length _name_array = length _value_array ->
  ((exists value, _from_int _value_array value = Return e) \/
   (exists name, _from_string _value_array _name_array name = Return e) \/
   (exists name,
       _from_string_nocase _value_array _name_array name = Return e) ->
   _from_int _value_array (to_int e) = Return e) /\
  (forall value,
      _from_int _value_array value = Return e ->
      e = _from_int_unchecked value /\ to_int e = value).
Proof.
  intros Hpar. split.
  - intros Hfrom.
    assert (Hin : In (_value e) _value_array).
    { destruct Hfrom as [(value & He) | [(name & He) | (name & He)]].
      - eapply _from_int_returns_member; exact He.
      - eapply _from_string_returns_member; [exact Hpar | exact He].
      - eapply _from_string_nocase_returns_member; [exact Hpar | exact He]. }
    unfold to_int. rewrite (_from_int_in_table _value_array (_value e) Hin).
    destruct e; reflexivity.
  - intros value He.
    destruct (in_dec Z.eq_dec value _value_array) as [Hin | Hnot].
    + rewrite (_from_int_in_table _value_array value Hin) in He.
      injection He as <-. split; reflexivity.
    + unfold _from_int in He.
      rewrite (int_none _value_array value true Hnot) in He.
      discriminate He.
Qed.

Lemma integer_round_trip_witness :
  length Channel._name_array = length Channel._value_array /\
  ((exists value,
       _from_int Channel._value_array value = Return {| _value := 2 |}) \/
   (exists name,
       _from_string Channel._value_array Channel._name_array name
       = Return {| _value := 2 |}) \/
   (exists name,
       _from_string_nocase Channel._value_array Channel._name_array name
       = Return {| _value := 2 |}) ->
   _from_int Channel._value_array (to_int {| _value := 2 |})
   = Return {| _value := 2 |}).
Proof.
  assert (Hpar : length Channel._name_array = length Channel._value_array)
    by reflexivity.
  split; [exact Hpar |].
  exact (proj1 (integer_round_trip Channel._value_array Channel._name_array
                  {| _value := 2 |} Hpar)).
Defined.
